(** * calchat: session store, response chunking, turn handling and the
    calendar tools

    A shallow embedding of [app/api/chat.py]:
    - [SessionManager] with [get_history], [_clean_expired_sessions] and
      [_remove_oldest_session];
    - the sentence splitting loop of [generate_openai_stream];
    - [generate_openai_stream] itself, over an abstract agent executor and
      with the history wrapper it calls;
    of [app/utils/date_utils.py], over the [datetime] and [pytz] calls it
    makes; and of [app/services/cal_api_service.py] and
    [app/tools/calendar_tools.py], as computations that call
    [make_api_request].

    Conventions.
    - [self.sessions] is a Python dict.  Iteration order (insertion order)
      decides which key [min] returns on ties, so the dict is an association
      list in insertion order.
    - [ChatMessageHistory] objects are mutable and shared between the store
      and the callers that hold them, so they live in a heap of message
      lists and the store keeps their addresses.
    - [time.time()] is read twice by [get_history] (once by the sweep, once
      when the record is stamped); both readings are explicit arguments.
      Timestamps are integers (seconds). *)

From Stdlib Require Import ZArith Lia String Ascii List.
From stdpp Require Import base decidable option list strings.
Import ListNotations.

Local Open Scope Z_scope.

(** ** Python dicts as insertion-ordered association lists *)

Module Dict.
Section Dict.
Context {V : Type}.

(** [d[k]] / [k in d] *)
Fixpoint get (k : string) (d : list (string * V)) : option V :=
  match d with
  | [] => None
  | (k', v) :: d' => if decide (k' = k) then Some v else get k d'
  end.

(** [del d[k]] *)
Definition del (k : string) (d : list (string * V)) : list (string * V) :=
  filter (λ p, p.1 ≠ k) d.

(** [d[k] = v]: an existing key keeps its position, a new key goes last *)
Fixpoint set (k : string) (v : V) (d : list (string * V)) : list (string * V) :=
  match d with
  | [] => [(k, v)]
  | (k', v') :: d' =>
      if decide (k' = k) then (k, v) :: d' else (k', v') :: set k v d'
  end.

(** [d.keys()] *)
Definition keys (d : list (string * V)) : list string := d.*1.

(** keys of a dict are pairwise distinct *)
Definition wf (d : list (string * V)) : Prop := NoDup (keys d).
End Dict.
End Dict.

(** Python's [min(iterable, key=f)] on a non-empty iterable [first :: rest]:
    the running best is replaced only by a strictly smaller key, so the first
    minimal element wins. *)
Fixpoint min_by {A} (key : A → Z) (best : A) (rest : list A) : A :=
  match rest with
  | [] => best
  | x :: rest' =>
      if decide (key x < key best) then min_by key x rest' else min_by key best rest'
  end.

(** ** Data model *)

Inductive Role := HumanMessage | AIMessage.

Record Message := { role : Role; content : string }.

(** [HumanMessage(content=...)] and [AIMessage(content=...)] *)
Definition Human (content : string) : Message :=
  {| role := HumanMessage; content := content |}.
Definition AI (content : string) : Message :=
  {| role := AIMessage; content := content |}.

(** address of a [ChatMessageHistory] object *)
Definition loc := nat.

(** [{"history": ..., "last_access": ...}] *)
Record SessionData := { history : loc; last_access : Z }.

(** [data["last_access"] = t] *)
Definition touch (t : Z) (data : SessionData) : SessionData :=
  {| history := history data; last_access := t |}.

Record SessionManager := {
  sessions : list (string * SessionData);
  expiry_hours : Z;
  max_sessions : Z
}.

Definition with_sessions (d : list (string * SessionData)) (self : SessionManager)
  : SessionManager :=
  {| sessions := d; expiry_hours := expiry_hours self; max_sessions := max_sessions self |}.

(** the module-level [session_manager] together with the histories it and
    its callers refer to *)
Record World := {
  session_manager : SessionManager;
  heap : list (list Message)
}.

(** [SessionManager.__init__] *)
Definition SessionManager_init (expiry_hours max_sessions : Z) : SessionManager :=
  {| sessions := []; expiry_hours := expiry_hours; max_sessions := max_sessions |}.

Definition new_world (expiry_hours max_sessions : Z) : World :=
  {| session_manager := SessionManager_init expiry_hours max_sessions; heap := [] |}.

(** ** SessionManager *)

(** the test of the list comprehension in [_clean_expired_sessions] *)
Definition expired (self : SessionManager) (current_time : Z) (data : SessionData) : Prop :=
  expiry_hours self * 3600 < current_time - last_access data.

Global Instance expired_dec self t data : Decision (expired self t data).
Proof. unfold expired. apply _. Defined.

Definition _clean_expired_sessions (current_time : Z) (self : SessionManager)
  : SessionManager :=
  let expired_sessions :=
    (filter (λ p, expired self current_time p.2) (sessions self)).*1 in
  with_sessions
    (foldl (λ d session_id, Dict.del session_id d) (sessions self) expired_sessions)
    self.

(** the [key=] lambda of [_remove_oldest_session]; every key it is applied to
    is a key of the dict *)
Definition last_access_of (self : SessionManager) (session_id : string) : Z :=
  match Dict.get session_id (sessions self) with
  | Some data => last_access data
  | None => 0
  end.

Definition _remove_oldest_session (self : SessionManager) : SessionManager :=
  match Dict.keys (sessions self) with
  | [] => self
  | k :: ks =>
      let oldest_session_id := min_by (last_access_of self) k ks in
      with_sessions (Dict.del oldest_session_id (sessions self)) self
  end.

(** [ChatMessageHistory()] *)
Definition new_history (h : list (list Message)) : loc * list (list Message) :=
  (length h, h ++ [[]]).

(** [current_time] is the clock reading of the sweep, [touch_time] the one
    written into the record. *)
Definition get_history (current_time touch_time : Z) (session_id : string) (w : World)
  : loc * World :=
  let self := _clean_expired_sessions current_time (session_manager w) in
  match Dict.get session_id (sessions self) with
  | Some data =>
      (history data,
       {| session_manager :=
            with_sessions (Dict.set session_id (touch touch_time data) (sessions self)) self;
          heap := heap w |})
  | None =>
      let self :=
        if decide (max_sessions self ≤ Z.of_nat (length (sessions self)))
        then _remove_oldest_session self else self in
      let '(h, heap') := new_history (heap w) in
      let data := {| history := h; last_access := touch_time |} in
      (h,
       {| session_manager := with_sessions (Dict.set session_id data (sessions self)) self;
          heap := heap' |})
  end.

(** one call [get_history(sid)] with its two clock readings *)
Record Access := { at_sweep : Z; at_touch : Z; sid : string }.

(** a call during which the clock does not move *)
Definition access (now : Z) (session_id : string) : Access :=
  {| at_sweep := now; at_touch := now; sid := session_id |}.

Definition step (w : World) (a : Access) : World :=
  (get_history (at_sweep a) (at_touch a) (sid a) w).2.

Definition run (ops : list Access) (w : World) : World := foldl step w ops.

Definition store (w : World) : list (string * SessionData) := sessions (session_manager w).

Definition size (w : World) : nat := length (store w).

(** the messages of the history stored under a session id *)
Definition messages_of (session_id : string) (w : World) : option (list Message) :=
  data ← Dict.get session_id (store w); heap w !! history data.


(** a world as Python keeps it: keys are distinct, every session has a
    history object of its own, and every stored history is allocated *)
Definition World_wf (w : World) : Prop :=
  Dict.wf (store w)
  ∧ (∀ k1 data1 k2 data2,
       (k1, data1) ∈ store w → (k2, data2) ∈ store w →
       history data1 = history data2 → k1 = k2)
  ∧ (∀ k data, (k, data) ∈ store w → (history data < length (heap w))%nat).

(** a store within capacity [N] whose records were all stamped at [t]: what
    a run of creations at one instant maintains *)
Definition settled (D : Z) (N : nat) (t : Z) (w : World) : Prop :=
  expiry_hours (session_manager w) = D
  ∧ max_sessions (session_manager w) = Z.of_nat N
  ∧ Dict.wf (store w)
  ∧ Forall (λ p, last_access p.2 = t) (store w)
  ∧ (size w ≤ N)%nat.

(** ** Splitting the reply into sentences *)

(** [['.', '!', '?', '\n']] *)
Definition sentence_ends : list ascii := ["."; "!"; "?"; "010"]%char.

(** [current_sentence += char] *)
Definition snoc (s : string) (char : ascii) : string := s +:+ String char EmptyString.

(** the [for char in ai_message] loop, from the state [(sentences,
    current_sentence)] it is entered with *)
Fixpoint sentence_loop (ai_message : string) (sentences : list string)
    (current_sentence : string) : list string * string :=
  match ai_message with
  | EmptyString => (sentences, current_sentence)
  | String char rest =>
      let current_sentence := snoc current_sentence char in
      if decide (char ∈ sentence_ends ∨ (80 ≤ String.length current_sentence)%nat)
      then sentence_loop rest (sentences ++ [current_sentence]) EmptyString
      else sentence_loop rest sentences current_sentence
  end.

(** [if current_sentence: sentences.append(current_sentence)] *)
Definition add_remaining (st : list string * string) : list string :=
  if decide (st.2 = EmptyString) then st.1 else st.1 ++ [st.2].

(** the list [sentences] that the yield loop iterates over *)
Definition split_sentences (ai_message : string) : list string :=
  add_remaining (sentence_loop ai_message [] EmptyString).

(** concatenation of fragments, in order *)
Definition join (fragments : list string) : string :=
  foldr String.append EmptyString fragments.

(** what every emitted fragment satisfies *)
Definition fragment_ok (f : string) : Prop :=
  f ≠ EmptyString ∧ (String.length f ≤ 80)%nat.

(** *** The chunker as the specification words it *)

(** the fragment ends with a sentence-terminal character *)
Definition ends_sentence (f : string) : Prop :=
  ∃ p char, f = snoc p char ∧ char ∈ sentence_ends.

(** the condition under which the accumulated fragment is closed *)
Definition closes (f : string) : Prop :=
  ends_sentence f ∨ (80 ≤ String.length f)%nat.

(** no non-empty prefix of [f] shorter than [f] closes: accumulation went on
    until [f] was complete *)
Definition open_before (f : string) : Prop :=
  ∀ p q, f = p +:+ q → p ≠ EmptyString → q ≠ EmptyString → ¬ closes p.

(** accumulation of [f] never met the closing condition *)
Definition never_closed (f : string) : Prop := open_before f ∧ ¬ closes f.

(** the characters of a text *)
Definition chars (s : string) : list ascii := list_ascii_of_string s.

(** [Greedy text fragments]: left to right, each fragment is closed as soon as
    it may be; a non-empty remainder that never closes is the last one *)
Inductive Greedy : string → list string → Prop :=
| Greedy_done : Greedy EmptyString []
| Greedy_close f rest fragments :
    f ≠ EmptyString → open_before f → closes f →
    Greedy rest fragments → Greedy (f +:+ rest) (f :: fragments)
| Greedy_remainder f :
    f ≠ EmptyString → never_closed f → Greedy f [f].

(** ** One turn: [generate_openai_stream] *)

(** [message_history.add_message(msg)] *)
Definition add_message (h : loc) (msg : Message) (w : World) : World :=
  {| session_manager := session_manager w;
     heap := alter (λ msgs, msgs ++ [msg]) h (heap w) |}.

(** [hist.add_messages(msgs)] *)
Definition add_messages (h : loc) (msgs : list Message) (w : World) : World :=
  {| session_manager := session_manager w;
     heap := alter (λ before, before ++ msgs) h (heap w) |}.

Definition newline : string := String "010"%char EmptyString.

Section Turn.

(** The agent executor behind [agent_with_chat_history]: from the messages
    passed as [chat_history] and the input it either raises ([inl (str e)])
    or returns [result["output"]] ([inr]).  It is library code, outside the
    repository. *)
Variable agent_executor : list Message → string → string + string.

(** [json.dumps({'content': s})] *)
Variable json_dumps_content : string → string.

(** [agent_with_chat_history.ainvoke], the call of
    [RunnableWithMessageHistory] built at lines 211-216: the wrapper fetches
    the history through [lambda sid: session_manager.get_history(sid)]
    (clock readings [t3], [t4]), runs the agent on the messages of that
    history and the input, and when the agent has returned it appends the
    input as a human message and the output as an AI message to the history
    it fetched.  When the agent raises, the wrapper appends nothing. *)
Definition ainvoke (t3 t4 : Z) (session_id content : string) (w : World)
  : (string + string) * World :=
  let '(h, w) := get_history t3 t4 session_id w in
  match agent_executor (default [] (heap w !! h)) content with
  | inr output => (inr output, add_messages h [Human content; AI output] w)
  | inl e => (inl e, w)
  end.

(** one [yield] *)
Definition emit (format_as_sse : bool) (sentence : string) : string :=
  if format_as_sse
  then "data: " +:+ json_dumps_content sentence +:+ newline +:+ newline
  else sentence.

Definition error_message (e : string) : string := "Error processing request: " +:+ e.

(** The generator run to exhaustion: the strings it yields and the world it
    leaves.  [t1], [t2] are the clock readings of the first [get_history],
    [t3], [t4] those of the one made by [ainvoke]. *)
Definition generate_openai_stream (t1 t2 t3 t4 : Z)
    (content session_id : string) (format_as_sse : bool) (w : World)
  : list string * World :=
  let '(message_history, w) := get_history t1 t2 session_id w in
  let w := add_message message_history (Human content) w in
  let '(result, w) := ainvoke t3 t4 session_id content w in
  match result with
  | inr ai_message =>
      let w := add_message message_history (AI ai_message) w in
      (emit format_as_sse <$> split_sentences ai_message, w)
  | inl e =>
      ([emit format_as_sse (error_message e)], w)
  end.

End Turn.

(** ** Python strings *)

Fixpoint take_str (n : nat) (s : string) : string :=
  match n, s with
  | S n, String c s => String c (take_str n s)
  | _, _ => EmptyString
  end.

Fixpoint drop_str (n : nat) (s : string) : string :=
  match n, s with
  | S n, String c s => drop_str n s
  | _, _ => s
  end.

(** [s[:-n]], for [n > 0] *)
Definition drop_last (n : nat) (s : string) : string :=
  take_str (String.length s - n) s.

(** [s[-n:]], for [n > 0] *)
Definition take_last (n : nat) (s : string) : string :=
  drop_str (String.length s - n) s.

(** [s.endswith(c)], for a one-character [c] *)
Definition endswith (c : ascii) (s : string) : Prop :=
  take_last 1 s = String c EmptyString.

Global Instance endswith_dec c s : Decision (endswith c s).
Proof. unfold endswith. apply _. Defined.

(** [s.rfind(c)]: the highest index of [c] in [s], or [-1] *)
Fixpoint rfind_from (c : ascii) (s : string) (i found : Z) : Z :=
  match s with
  | EmptyString => found
  | String c' s' => rfind_from c s' (i + 1) (if decide (c' = c) then i else found)
  end.

Definition rfind (c : ascii) (s : string) : Z := rfind_from c s 0 (-1).

(** truth value of an [Optional[str]] *)
Definition truthy_str (s : option string) : Prop :=
  match s with Some s => s ≠ EmptyString | None => False end.

Global Instance truthy_str_dec s : Decision (truthy_str s).
Proof. destruct s; apply _. Defined.

(** ** [utils/date_utils.py] *)

(** What the function uses of [datetime] and [pytz].  A raised [ValueError]
    is [inl] of its message; [pytz.timezone] answers [None] where it raises
    [UnknownTimeZoneError], whose [str] is [str_UnknownTimeZoneError] of the
    name. *)
Class DatetimeLib := {
  datetime : Type;
  tzinfo : Type;
  pytz_timezone : option string → option tzinfo;
  str_UnknownTimeZoneError : option string → string;
  datetime_now : tzinfo → datetime;
  plus_days : Z → datetime → datetime;
  fromisoformat : string → string + datetime;
  localize : tzinfo → datetime → string + datetime;
  strftime : datetime → string
}.

Module DateUtils.
Section DateUtils.
Context `{DatetimeLib}.

(** [f"{formatted[:-2]}:{formatted[-2:]}"] *)
Definition insert_offset_colon (formatted : string) : string :=
  drop_last 2 formatted +:+ ":" +:+ take_last 2 formatted.

(** [dt.strftime("%Y-%m-%dT%H:%M:%S%z")] with the colon put into the offset *)
Definition format_datetime (dt : datetime) : option string * option string :=
  (Some (insert_offset_colon (strftime dt)), None).

Definition invalid_format (e : string) : option string * option string :=
  (None,
   Some ("Invalid datetime format: " +:+ e
         +:+ ". Expected format like '2025-03-21T11:00:00-07:00'")).

Definition unknown_timezone (timezone_str : option string) : option string * option string :=
  (None, Some ("Unknown timezone: " +:+ str_UnknownTimeZoneError timezone_str)).

(** ['+' in s or '-' in s and s.rfind('-') > 10] *)
Definition has_offset (datetime_str : string) : Prop :=
  "+"%char ∈ chars datetime_str
  ∨ ("-"%char ∈ chars datetime_str ∧ 10 < rfind "-" datetime_str).

(** the string after the ['Z'] marker has been replaced *)
Definition replace_Z (datetime_str : string) : string :=
  if decide (endswith "Z" datetime_str)
  then drop_last 1 datetime_str +:+ "+00:00"
  else datetime_str.

Definition validate_and_format_datetime
    (datetime_str : string) (timezone_str : option string) (is_end_time : bool)
  : option string * option string :=
  if decide (datetime_str = EmptyString) then
    match pytz_timezone timezone_str with
    | None => unknown_timezone timezone_str
    | Some tz =>
        let dt := if is_end_time then plus_days 7 (datetime_now tz) else datetime_now tz in
        format_datetime dt
    end
  else
    let datetime_str := replace_Z datetime_str in
    if decide (has_offset datetime_str) then
      match fromisoformat datetime_str with
      | inl e => invalid_format e
      | inr dt => format_datetime dt
      end
    else
      match fromisoformat datetime_str with
      | inl e => invalid_format e
      | inr dt_naive =>
          match pytz_timezone timezone_str with
          | None => unknown_timezone timezone_str
          | Some tz =>
              match localize tz dt_naive with
              | inl e => invalid_format e
              | inr dt => format_datetime dt
              end
          end
      end.

End DateUtils.
End DateUtils.

(** ** Python values *)

(** a [float]: [m * 2^e], an infinity or a NaN *)
Inductive PyFloatVal := Finite (m e : Z) | Infinity (negative : bool) | NaN.

(** JSON-like values: what [response.json()] returns and what the tools
    build. *)
#[local] Unset Elimination Schemes.
Inductive PyVal :=
| PyNone
| PyBool (b : bool)
| PyInt (n : Z)
| PyFloat (f : PyFloatVal)
| PyStr (s : string)
| PyList (l : list PyVal)
| PyDict (d : list (string * PyVal)).
#[local] Set Elimination Schemes.

(** [bool(v)] *)
Definition truthy (v : PyVal) : Prop :=
  match v with
  | PyNone => False
  | PyBool b => b = true
  | PyInt n => n ≠ 0
  | PyFloat (Finite m _) => m ≠ 0
  | PyFloat _ => True
  | PyStr s => s ≠ EmptyString
  | PyList l => l ≠ []
  | PyDict d => d ≠ []
  end.

Global Instance truthy_dec v : Decision (truthy v).
Proof. destruct v as [| | |[| |]| | |]; simpl; apply _. Defined.

(** an [Optional[...]] argument as a value *)
Definition py_str (s : option string) : PyVal :=
  match s with Some s => PyStr s | None => PyNone end.
Definition py_int (n : option Z) : PyVal :=
  match n with Some n => PyInt n | None => PyNone end.

(** [f"{s}"] for an [Optional[str]] *)
Definition format_str (s : option string) : string :=
  match s with Some s => s | None => "None" end.

(** [{"error": msg}] *)
Definition error_dict (msg : string) : PyVal := PyDict [("error"%string, PyStr msg)].

Inductive PyExn := AttributeError | TypeError | KeyError (k : string).

(** [sub in s] for strings *)
Fixpoint is_substring (sub s : string) : bool :=
  String.prefix sub s
  || match s with
     | EmptyString => false
     | String _ s' => is_substring sub s'
     end.

(** [v == s] for a string [s] *)
Definition py_eq_str (v : PyVal) (s : string) : bool :=
  match v with PyStr s' => bool_decide (s' = s) | _ => false end.

(** [k in v] for a string [k] *)
Definition py_contains (k : string) (v : PyVal) : PyExn + bool :=
  match v with
  | PyDict d => inr (bool_decide (is_Some (Dict.get k d)))
  | PyList l => inr (existsb (λ x, py_eq_str x k) l)
  | PyStr s => inr (is_substring k s)
  | _ => inl TypeError
  end.

(** [v.get(k, default)] *)
Definition py_get (v : PyVal) (k : string) (default : PyVal) : PyExn + PyVal :=
  match v with
  | PyDict d => inr (from_option id default (Dict.get k d))
  | _ => inl AttributeError
  end.

(** [v[k]] for a string [k] *)
Definition py_getitem (v : PyVal) (k : string) : PyExn + PyVal :=
  match v with
  | PyDict d => match Dict.get k d with Some x => inr x | None => inl (KeyError k) end
  | _ => inl TypeError
  end.

(** the items of [for x in v] *)
Definition py_iter (v : PyVal) : PyExn + list PyVal :=
  match v with
  | PyList l => inr l
  | PyDict d => inr (PyStr <$> Dict.keys d)
  | PyStr s => inr ((λ c, PyStr (String c EmptyString)) <$> chars s)
  | _ => inl TypeError
  end.

(** code that may raise *)
Definition try_bind {A B} (x : PyExn + A) (f : A → PyExn + B) : PyExn + B :=
  match x with inl e => inl e | inr a => f a end.

Fixpoint try_map {A B} (f : A → PyExn + B) (l : list A) : PyExn + list B :=
  match l with
  | [] => inr []
  | x :: l => try_bind (f x) (λ y, try_bind (try_map f l) (λ ys, inr (y :: ys)))
  end.

(** [', '.join(l)] *)
Fixpoint join_comma (l : list string) : string :=
  match l with
  | [] => EmptyString
  | [x] => x
  | x :: l => x +:+ ", " +:+ join_comma l
  end.

(** ** Calls of [make_api_request] *)

(** the arguments of one call *)
Record Request := {
  method : string;
  url : string;
  headers : list (string * string);
  params : option (list (string * PyVal));
  json_data : option (list (string * PyVal));
  action_description : string
}.

(** what [make_api_request] returns: [(response_data, error_msg)] *)
Definition Returned : Type := PyVal * option string.

(** How a call of [make_api_request] ends: it returns, or an exception
    leaves it ([inl]).  The handler of [RequestException] (lines 65-75)
    reads [e.response.status_code] after the inner [except Exception as e]
    has rebound [e] to the exception of [e.response.json()]: an HTTP error
    whose body is not JSON ends the call with an [AttributeError], which the
    last handler (line 77), a sibling of that one, does not catch. *)
Definition Reply : Type := PyExn + Returned.

(** A computation that calls [make_api_request]: it returns, it raises, or
    it makes a request and goes on with the way the call ended. *)
Inductive Call (A : Type) :=
| Ret (a : A)
| Raise (e : PyExn)
| Req (r : Request) (k : Reply → Call A).
Arguments Ret {A} a.
Arguments Raise {A} e.
Arguments Req {A} r k.

(** [response_data, error_msg = make_api_request(...)] and the statements
    after it: the call is in no [try] block of a service method or of a
    tool, so its exception leaves the caller *)
Definition on_return {A} (rest : Returned → Call A) (reply : Reply) : Call A :=
  match reply with
  | inl e => Raise e
  | inr returned => rest returned
  end.

(** ** [utils/api_utils.py] *)

(** [os.environ.get(name)] is [environ name] *)
Definition get_api_key (environ : string → option string) (api_key_env_var : string)
  : option string :=
  let api_key := environ api_key_env_var in
  if decide (truthy_str api_key) then api_key else None.

(** ** [services/cal_api_service.py] *)

(** the attributes [id], [slug] and [title] of the class *)
Record EventType := {
  EventType_id : PyVal; EventType_slug : PyVal; EventType_title : PyVal
}.

Record UserProfile := {
  profile_id : PyVal; profile_username : PyVal; profile_email : PyVal; time_zone : PyVal
}.

Record CalApiService := {
  api_key : option string;
  username : option string;
  all_event_types : list EventType;
  my_profile : PyVal + UserProfile
}.

Module Cal.
Section Cal.
(** [str(e)] of the exceptions the parsing code can catch *)
Context (str_exn : PyExn → string).
Context (self : CalApiService).

Definition API_BASE_URL : string := "https://api.cal.com/v2".
Definition API_KEY_ENV_VAR : string := "CAL_DOT_COM_API_KEY".
Definition USERNAME_ENV_VAR : string := "CAL_DOT_COM_USERNAME".

Definition _get_headers : list (string * string) :=
  [("Content-Type", "application/json");
   ("Authorization", "Bearer " +:+ format_str (api_key self))]%string.

Definition _get_headers_with_api_version (api_version : string) : list (string * string) :=
  [("Content-Type", "application/json");
   ("Authorization", "Bearer " +:+ format_str (api_key self));
   ("cal-api-version", api_version)]%string.

Definition _check_api_key : option PyVal :=
  if decide (truthy_str (api_key self)) then None
  else Some (error_dict (API_KEY_ENV_VAR +:+ " not found in environment variables")).

(** the [error_msg] returned when [if error_msg:] holds *)
Definition request_error (returned : Returned) : option string :=
  match returned.2 with
  | Some error_msg => if decide (error_msg = EmptyString) then None else Some error_msg
  | None => None
  end.

(** [response_data if not error_msg else {"error": error_msg}] *)
Definition data_or_error (returned : Returned) : PyVal :=
  match request_error returned with
  | Some error_msg => error_dict error_msg
  | None => returned.1
  end.

Definition get_request (url : string) (api_version : string)
    (params : option (list (string * PyVal))) (action_description : string) : Request :=
  {| method := "GET"; url := url; headers := _get_headers_with_api_version api_version;
     params := params; json_data := None; action_description := action_description |}.

Definition post_request (url : string) (api_version : string)
    (json_data : list (string * PyVal)) (action_description : string) : Request :=
  {| method := "POST"; url := url; headers := _get_headers_with_api_version api_version;
     params := None; json_data := Some json_data; action_description := action_description |}.

(** [if cond: d[k] = v] *)
Definition set_if (cond : Prop) `{!Decision cond} (k : string) (v : PyVal)
    (d : list (string * PyVal)) : list (string * PyVal) :=
  if decide cond then Dict.set k v d else d.

Definition get_bookable_slots (start end_ : option string) (event_type_slug : string)
    (time_zone : option string) : Call PyVal :=
  match _check_api_key with
  | Some error => Ret error
  | None =>
      if decide (¬ truthy_str start ∨ ¬ truthy_str end_) then
        Ret (error_dict "Missing required parameters: start and end")
      else
        let params :=
          [("start", py_str start); ("end", py_str end_);
           ("eventTypeSlug", PyStr event_type_slug)]%string in
        let params := set_if (truthy_str time_zone) "timeZone" (py_str time_zone) params in
        let params := set_if (truthy_str (username self)) "username" (py_str (username self))
                        params in
        Req (get_request (API_BASE_URL +:+ "/slots") "2024-09-04" (Some params)
               "Fetching bookable slots")
            (on_return (λ returned, Ret (data_or_error returned)))
  end.

Definition create_new_booking (event_type_id : Z) (start : option string)
    (attendee : list (string * PyVal)) (length_in_minutes : option Z)
    (location metadata : option (list (string * PyVal))) : Call PyVal :=
  match _check_api_key with
  | Some error => Ret error
  | None =>
      if decide (event_type_id = 0 ∨ ¬ truthy_str start ∨ attendee = []) then
        let missing_fields :=
          (if decide (event_type_id = 0) then ["event_type_id"%string] else [])
          ++ (if decide (truthy_str start) then [] else ["start"%string])
          ++ (if decide (attendee = []) then ["attendee"%string] else []) in
        Ret (error_dict ("Missing required parameters: " +:+ join_comma missing_fields))
      else
        let required_attendee_fields := ["name"; "email"; "timeZone"]%string in
        let missing_attendee_fields :=
          filter (λ field, Dict.get field attendee = None) required_attendee_fields in
        if decide (missing_attendee_fields ≠ []) then
          Ret (error_dict ("Missing required attendee fields: "
                           +:+ join_comma missing_attendee_fields))
        else
          let payload :=
            [("eventTypeId", PyInt event_type_id); ("start", py_str start);
             ("attendee", PyDict attendee)]%string in
          let payload :=
            set_if (truthy (py_int length_in_minutes)) "lengthInMinutes"
              (py_int length_in_minutes) payload in
          let payload :=
            match location with
            | Some ((_ :: _) as location) => Dict.set "location" (PyDict location) payload
            | _ => payload
            end in
          let metadata :=
            match metadata with
            | Some ((_ :: _) as metadata) => metadata
            | _ => []
            end in
          let payload :=
            Dict.set "metadata" (PyDict (Dict.set "source" (PyStr "calchat") metadata))
              payload in
          Req (post_request (API_BASE_URL +:+ "/bookings") "2024-08-13" payload
                 "Creating new booking")
              (on_return (λ returned, Ret (data_or_error returned)))
  end.

Definition get_all_bookings (attendee_email attendee_name : option string)
    (take skip : option Z) : Call PyVal :=
  match _check_api_key with
  | Some error => Ret error
  | None =>
      let params := [] in
      let params := set_if (truthy_str attendee_email) "attendeeEmail" (py_str attendee_email)
                      params in
      let params := set_if (truthy_str attendee_name) "attendeeName" (py_str attendee_name)
                      params in
      let params := set_if (truthy (py_int take)) "take" (py_int take) params in
      let params := set_if (truthy (py_int skip)) "skip" (py_int skip) params in
      Req (get_request (API_BASE_URL +:+ "/bookings") "2024-08-13" (Some params)
             "Fetching bookings")
          (on_return (λ returned, Ret (data_or_error returned)))
  end.

Definition get_booking (booking_uid : string) : Call PyVal :=
  match _check_api_key with
  | Some error => Ret error
  | None =>
      if decide (booking_uid = EmptyString) then Ret (error_dict "Booking UID is required")
      else
        Req (get_request (API_BASE_URL +:+ "/bookings/" +:+ booking_uid) "2024-08-13" None
               ("Fetching booking with UID: " +:+ booking_uid))
            (on_return (λ returned, Ret (data_or_error returned)))
  end.

Definition reschedule_booking (booking_uid : string) (start : option string)
    (rescheduled_by rescheduling_reason : option string) : Call PyVal :=
  match _check_api_key with
  | Some error => Ret error
  | None =>
      if decide (booking_uid = EmptyString) then Ret (error_dict "Booking UID is required")
      else if decide (truthy_str start) then
        let payload := [("start"%string, py_str start)] in
        let payload := set_if (truthy_str rescheduled_by) "rescheduledBy"
                         (py_str rescheduled_by) payload in
        let payload := set_if (truthy_str rescheduling_reason) "reschedulingReason"
                         (py_str rescheduling_reason) payload in
        Req (post_request (API_BASE_URL +:+ "/bookings/" +:+ booking_uid +:+ "/reschedule")
               "2024-08-13" payload ("Rescheduling booking " +:+ booking_uid))
            (on_return (λ returned, Ret (data_or_error returned)))
      else Ret (error_dict "New start time is required")
  end.

Definition cancel_booking (booking_uid : string) (cancellation_reason : option string)
    (cancel_subsequent_bookings : option bool) : Call PyVal :=
  match _check_api_key with
  | Some error => Ret error
  | None =>
      if decide (booking_uid = EmptyString) then Ret (error_dict "Booking UID is required")
      else
        let payload := [] in
        let payload := set_if (truthy_str cancellation_reason) "cancellationReason"
                         (py_str cancellation_reason) payload in
        let payload :=
          match cancel_subsequent_bookings with
          | Some b => Dict.set "cancelSubsequentBookings" (PyBool b) payload
          | None => payload
          end in
        Req (post_request (API_BASE_URL +:+ "/bookings/" +:+ booking_uid +:+ "/cancel")
               "2024-08-13" payload ("Cancelling booking with UID: " +:+ booking_uid))
            (on_return (λ returned, Ret (data_or_error returned)))
  end.

(** the [try] block of [get_all_event_types]: [inr (inl msg)] is the
    [else] branch *)
Definition parse_event_types (response_data : PyVal)
  : PyExn + (string + list EventType) :=
  try_bind (py_get response_data "status" PyNone) (λ status,
  try_bind (if py_eq_str status "success" then py_contains "data" response_data
            else inr false) (λ ok,
  if ok : bool then
    try_bind (py_getitem response_data "data") (λ data,
    try_bind (py_iter data) (λ items,
    try_bind
      (try_map (λ event_type_data,
         try_bind (py_getitem event_type_data "id") (λ id,
         try_bind (py_getitem event_type_data "title") (λ title,
         try_bind (py_getitem event_type_data "slug") (λ slug,
         inr {| EventType_id := id; EventType_slug := slug; EventType_title := title |}))))
         items) (λ event_types,
    inr (inr event_types))))
  else inr (inl "Invalid response format from Cal.com API"%string))).

Definition get_all_event_types : Call (PyVal + list EventType) :=
  match _check_api_key with
  | Some error => Ret (inl error)
  | None =>
      Req (get_request (API_BASE_URL +:+ "/event-types") "2024-06-14"
             (Some [("username"%string, py_str (username self))]) "Fetching event types")
          (on_return (λ returned,
             match request_error returned with
             | Some error_msg => Ret (inl (error_dict error_msg))
             | None =>
                 match parse_event_types returned.1 with
                 | inr (inr event_types) => Ret (inr event_types)
                 | inr (inl error_msg) => Ret (inl (error_dict error_msg))
                 | inl e =>
                     Ret (inl (error_dict ("Error parsing event types: " +:+ str_exn e)))
                 end
             end))
  end.

(** the [try] block of [get_my_profile] *)
Definition parse_user_profile (response_data : PyVal)
  : PyExn + (string + UserProfile) :=
  try_bind (py_get response_data "status" PyNone) (λ status,
  try_bind (if py_eq_str status "success" then py_contains "data" response_data
            else inr false) (λ ok,
  if ok : bool then
    try_bind (py_getitem response_data "data") (λ profile_data,
    try_bind (py_getitem profile_data "id") (λ id,
    try_bind (py_getitem profile_data "username") (λ username,
    try_bind (py_getitem profile_data "email") (λ email,
    try_bind (py_get profile_data "timeZone" (PyStr "UTC")) (λ time_zone,
    inr (inr {| profile_id := id; profile_username := username;
                profile_email := email; time_zone := time_zone |}))))))
  else inr (inl "Invalid response format from Cal.com API"%string))).

Definition get_my_profile : Call (PyVal + UserProfile) :=
  match _check_api_key with
  | Some error => Ret (inl error)
  | None =>
      Req {| method := "GET"; url := API_BASE_URL +:+ "/me"; headers := _get_headers;
             params := None; json_data := None;
             action_description := "Fetching user profile" |}
          (on_return (λ returned,
             match request_error returned with
             | Some error_msg => Ret (inl (error_dict error_msg))
             | None =>
                 match parse_user_profile returned.1 with
                 | inr (inr user_profile) => Ret (inr user_profile)
                 | inr (inl error_msg) => Ret (inl (error_dict error_msg))
                 | inl e =>
                     Ret (inl (error_dict ("Error parsing user profile: " +:+ str_exn e)))
                 end
             end))
  end.

End Cal.

(** [g(f())] for computations: an exception of [f] leaves [g] too *)
Fixpoint bind {A B} (c : Call A) (f : A → Call B) : Call B :=
  match c with
  | Ret a => f a
  | Raise e => Raise e
  | Req r k => Req r (λ reply, bind (k reply) f)
  end.

(** [CalApiService.__init__] on a new instance.  The two requests are made
    while [all_event_types] and [my_profile] are not set yet; they are not
    read by the methods called.  An exception of either call leaves
    [__init__]. *)
Definition init (str_exn : PyExn → string) (environ : string → option string)
  : Call CalApiService :=
  let self := {| api_key := get_api_key environ API_KEY_ENV_VAR;
                 username := environ USERNAME_ENV_VAR;
                 all_event_types := [];
                 my_profile := inl PyNone |} in
  bind (get_all_event_types str_exn self) (λ event_types_result,
  bind (get_my_profile str_exn self) (λ my_profile,
  Ret {| api_key := api_key self;
         username := username self;
         all_event_types :=
           match event_types_result with inr event_types => event_types | inl _ => [] end;
         my_profile := my_profile |})).

End Cal.

(** ** [tools/calendar_tools.py] *)

Module Tools.
Section Tools.
Context `{DatetimeLib}.
Context (cal_api_service : CalApiService).

(** [if start_error: return {"error": start_error}], else go on with the
    formatted string *)
Definition checked (validated : option string * option string)
    (k : option string → Call PyVal) : Call PyVal :=
  match validated.2 with
  | Some error =>
      if decide (error = EmptyString) then k validated.1 else Ret (error_dict error)
  | None => k validated.1
  end.

Definition get_available_slots (start end_ event_type_slug : string)
    (time_zone : option string) : Call PyVal :=
  checked (DateUtils.validate_and_format_datetime start time_zone false)
    (λ start_formatted,
  checked (DateUtils.validate_and_format_datetime end_ time_zone true)
    (λ end_formatted,
  Cal.get_bookable_slots cal_api_service start_formatted end_formatted event_type_slug
    time_zone)).

Definition book_new_appointment (event_type_id : Z)
    (start_time attendee_name attendee_email attendee_timezone : string)
    (title description location : option string) : Call PyVal :=
  if decide (event_type_id = 0) then
    Ret (error_dict "Invalid event_type_id. Must be a valid integer.")
  else
    checked (DateUtils.validate_and_format_datetime start_time (Some attendee_timezone) false)
      (λ start_formatted,
    let attendee :=
      [("name", PyStr attendee_name); ("email", PyStr attendee_email);
       ("timeZone", PyStr attendee_timezone)]%string in
    let location_payload :=
      if decide (truthy_str location)
      then [("location", py_str location); ("type", PyStr "attendeeDefined")]%string
      else [("location", PyStr "To be determined"); ("type", PyStr "attendeeDefined")]%string
    in
    let metadata := [] in
    let metadata := Cal.set_if (truthy_str title) "title" (py_str title) metadata in
    let metadata :=
      Cal.set_if (truthy_str description) "description" (py_str description) metadata in
    Cal.create_new_booking cal_api_service event_type_id start_formatted attendee None
      (Some location_payload) (Some metadata)).

Definition get_user_bookings (attendee_email attendee_name : option string)
    (take : option Z) : Call PyVal :=
  if decide (truthy_str attendee_email ∨ truthy_str attendee_name) then
    Cal.get_all_bookings cal_api_service attendee_email attendee_name take None
  else
    Ret (error_dict "At least one filter must be provided (attendee_email, attendee_name, status, after_start, before_end, or event_type_id)").

Definition get_booking_by_uid (booking_uid : string) : Call PyVal :=
  if decide (booking_uid = EmptyString) then Ret (error_dict "Booking UID is required")
  else Cal.get_booking cal_api_service booking_uid.

Definition reschedule_appointment (booking_uid new_start_time time_zone : string)
    (rescheduled_by_email rescheduling_reason : option string) : Call PyVal :=
  if decide (booking_uid = EmptyString) then Ret (error_dict "Booking UID is required")
  else
    checked (DateUtils.validate_and_format_datetime new_start_time (Some time_zone) false)
      (λ start_formatted,
    Cal.reschedule_booking cal_api_service booking_uid start_formatted
      rescheduled_by_email rescheduling_reason).

(** the answer of [cancel_appointment] for a recurring booking *)
Definition confirmation_required (booking_data : PyVal) : PyVal :=
  PyDict
    [("confirmation_required", PyBool true);
     ("message", PyStr "This is a recurring booking. Do you want to cancel just this occurrence or all future occurrences?");
     ("booking_details", booking_data);
     ("options",
      PyList
        [PyDict [("label", PyStr "Just this occurrence"); ("value", PyBool false)];
         PyDict [("label", PyStr "All future occurrences"); ("value", PyBool true)]])]%string.

(** the tests on [booking_info] are in no [try] block: what they raise
    leaves the tool *)
Definition cancel_appointment (booking_uid : string) (cancellation_reason : option string)
    (cancel_subsequent_bookings : option bool) : Call PyVal :=
  if decide (booking_uid = EmptyString) then Ret (error_dict "Booking UID is required")
  else
    Cal.bind (Cal.get_booking cal_api_service booking_uid) (λ booking_info,
    match py_contains "error" booking_info with
    | inl e => Raise e
    | inr true => Ret booking_info
    | inr false =>
        match py_get booking_info "data" (PyDict []) with
        | inl e => Raise e
        | inr booking_data =>
            match py_get booking_data "recurringEventId" PyNone with
            | inl e => Raise e
            | inr recurring =>
                if decide (truthy recurring ∧ cancel_subsequent_bookings = None) then
                  Ret (confirmation_required booking_data)
                else
                  Cal.cancel_booking cal_api_service booking_uid cancellation_reason
                    cancel_subsequent_bookings
            end
        end
    end).

End Tools.
End Tools.

(** a request that goes to the Cal.com API with the key of the service *)
Definition sent_with_key (self : CalApiService) (r : Request) : Prop :=
  ∃ key path,
    api_key self = Some key ∧ key ≠ EmptyString
    ∧ Dict.get "Authorization" (headers r) = Some ("Bearer " +:+ key)
    ∧ Dict.get "Content-Type" (headers r) = Some "application/json"%string
    ∧ url r = Cal.API_BASE_URL +:+ "/" +:+ path.

(** what a service method does once its request is made: an exception of
    [make_api_request] leaves it, and what was returned is passed on as the
    data, or as an error dictionary when there is an error message *)
Definition passes_on (k : Reply → Call PyVal) : Prop :=
  (∀ e, k (inl e) = Raise e)
  ∧ ∀ returned, k (inr returned) = Ret (Cal.data_or_error returned).

(** the computation makes a request *)
Definition makes_request {A} (c : Call A) : Prop := ∃ r k, c = Req r k.

(** a computation that fails at once with an error dictionary, or makes one
    request and passes on how it ended *)
Definition one_request (self : CalApiService) (c : Call PyVal) : Prop :=
  (∃ msg, msg ≠ EmptyString ∧ c = Ret (error_dict msg))
  ∨ (∃ r k, c = Req r k ∧ sent_with_key self r ∧ passes_on k).

(** * Proofs *)

(** ** Strings *)

Section StringFacts.
Implicit Types (s t u : string) (c : ascii).

Lemma append_nil_l s : EmptyString +:+ s = s.
Proof. reflexivity. Qed.

Lemma append_cons c s t : String c s +:+ t = String c (s +:+ t).
Proof. reflexivity. Qed.

Lemma append_nil_r s : s +:+ EmptyString = s.
Proof. induction s as [|c s IH]; [done|]. by rewrite append_cons, IH. Qed.

Lemma append_assoc s t u : (s +:+ t) +:+ u = s +:+ (t +:+ u).
Proof. induction s as [|c s IH]; [done|]. by rewrite !append_cons, IH. Qed.

Lemma length_append s t :
  String.length (s +:+ t) = (String.length s + String.length t)%nat.
Proof. induction s as [|c s IH]; [done|]. rewrite append_cons. simpl. by rewrite IH. Qed.

Lemma append_eq_nil s t : s +:+ t = EmptyString → s = EmptyString ∧ t = EmptyString.
Proof. destruct s; [done|]. by rewrite append_cons. Qed.

Lemma length_zero s : String.length s = 0%nat → s = EmptyString.
Proof. by destruct s. Qed.

Lemma snoc_cons c s c' : snoc (String c s) c' = String c (snoc s c').
Proof. reflexivity. Qed.

Lemma snoc_append s c t : snoc s c +:+ t = s +:+ String c t.
Proof. unfold snoc. by rewrite append_assoc. Qed.

Lemma append_snoc s t c : s +:+ snoc t c = snoc (s +:+ t) c.
Proof. unfold snoc. by rewrite append_assoc. Qed.

Lemma length_snoc s c : String.length (snoc s c) = S (String.length s).
Proof. unfold snoc. rewrite length_append. simpl. lia. Qed.

Lemma snoc_not_nil s c : snoc s c ≠ EmptyString.
Proof. by destruct s. Qed.

Lemma snoc_inj s c t c' : snoc s c = snoc t c' → s = t ∧ c = c'.
Proof.
  revert t. induction s as [|a s IH]; intros [|b t]; rewrite ?snoc_cons; intros H.
  - by inversion H.
  - inversion H as [[Ha Hs]]. by destruct (snoc_not_nil t c').
  - inversion H as [[Ha Hs]]. by destruct (snoc_not_nil s c).
  - inversion H as [[Ha Hs]]. destruct (IH t Hs) as [-> ->]. done.
Qed.

(** a string that is not empty ends with some character *)
Lemma snoc_destruct s : s = EmptyString ∨ ∃ t c, s = snoc t c.
Proof.
  induction s as [|a s IH]; [by left|right].
  destruct IH as [->|(t & c & ->)].
  - by exists EmptyString, a.
  - by exists (String a t), c.
Qed.

(** splitting [snoc s c] before its last character splits [s] *)
Lemma snoc_eq_append s c p q :
  snoc s c = p +:+ q → q ≠ EmptyString → ∃ q', q = snoc q' c ∧ s = p +:+ q'.
Proof.
  intros H Hq. destruct (snoc_destruct q) as [->|(q' & c' & ->)]; [done|].
  exists q'. rewrite append_snoc in H. apply snoc_inj in H as [-> ->]. done.
Qed.

(** two splittings of one string: one left part is a prefix of the other *)
Lemma append_eq_append s t s' t' :
  s +:+ t = s' +:+ t' →
  (∃ r, s' = s +:+ r ∧ t = r +:+ t') ∨ (∃ r, s = s' +:+ r ∧ t' = r +:+ t).
Proof.
  revert s'. induction s as [|a s IH]; intros s' H.
  - left. by exists s'.
  - destruct s' as [|b s'].
    + right. by exists (String a s).
    + rewrite !append_cons in H. inversion H as [[Hab Hs]].
      destruct (IH _ Hs) as [(r & -> & ->)|(r & -> & ->)].
      * left. by exists r.
      * right. by exists r.
Qed.

Lemma split_at (n : nat) s :
  (n ≤ String.length s)%nat → ∃ a b, s = a +:+ b ∧ String.length a = n.
Proof.
  revert s. induction n as [|n IH]; intros s Hn.
  - by exists EmptyString, s.
  - destruct s as [|c s]; simpl in Hn; [lia|].
    destruct (IH s) as (a & b & -> & Ha); [lia|].
    exists (String c a), b. simpl. by rewrite Ha.
Qed.

End StringFacts.

(** ** The chunker *)

Lemma join_app (xs ys : list string) : join (xs ++ ys) = join xs +:+ join ys.
Proof.
  induction xs as [|x xs IH]; [done|].
  change (x +:+ join (xs ++ ys) = (x +:+ join xs) +:+ join ys).
  by rewrite IH, append_assoc.
Qed.

Lemma join_snoc (xs : list string) (x : string) : join (xs ++ [x]) = join xs +:+ x.
Proof. rewrite join_app. change (join [x]) with (x +:+ EmptyString). by rewrite append_nil_r. Qed.

Lemma add_remaining_join (sentences : list string) (current_sentence : string) :
  join (add_remaining (sentences, current_sentence)) = join sentences +:+ current_sentence.
Proof.
  unfold add_remaining; simpl. case_decide as H.
  - by rewrite H, append_nil_r.
  - apply join_snoc.
Qed.

(** what the loop has emitted and still holds, followed by what it has not
    read yet, is the text *)
Lemma sentence_loop_join (ai_message : string) :
  ∀ sentences current_sentence,
    join (add_remaining (sentence_loop ai_message sentences current_sentence))
    = join sentences +:+ current_sentence +:+ ai_message.
Proof.
  induction ai_message as [|char rest IH]; intros sentences cur; simpl.
  - by rewrite add_remaining_join, append_nil_r.
  - case_decide.
    + by rewrite IH, join_snoc, append_nil_l, append_assoc, snoc_append.
    + by rewrite IH, snoc_append.
Qed.

(** C5: the fragments of a text, concatenated in order, are the text. *)
Theorem split_sentences_join (ai_message : string) :
  join (split_sentences ai_message) = ai_message.
Proof. unfold split_sentences. by rewrite sentence_loop_join. Qed.

Lemma add_remaining_ok (sentences : list string) (current_sentence : string) :
  Forall fragment_ok sentences → (String.length current_sentence < 80)%nat →
  Forall fragment_ok (add_remaining (sentences, current_sentence)).
Proof.
  intros Hs Hc. unfold add_remaining; simpl. case_decide; [done|].
  apply Forall_app. split; [done|]. apply Forall_singleton. split; [done|lia].
Qed.

(** loop invariant: fragments already closed are fine and the open one is
    shorter than 80 *)
Lemma sentence_loop_ok (ai_message : string) :
  ∀ sentences current_sentence,
    Forall fragment_ok sentences → (String.length current_sentence < 80)%nat →
    Forall fragment_ok (add_remaining (sentence_loop ai_message sentences current_sentence)).
Proof.
  induction ai_message as [|char rest IH]; intros sentences cur Hs Hc; simpl.
  - by apply add_remaining_ok.
  - pose proof (length_snoc cur char) as Hlen. case_decide as Hbreak.
    + apply IH; [|simpl; lia]. apply Forall_app. split; [done|].
      apply Forall_singleton. split; [apply snoc_not_nil|lia].
    + apply IH; [done|]. lia.
Qed.

(** C10: every fragment is non-empty and has at most 80 characters, and the
    empty text has no fragments. *)
Theorem split_sentences_bounded (ai_message : string) :
  Forall (λ f, f ≠ EmptyString ∧ (String.length f ≤ 80)%nat) (split_sentences ai_message)
  ∧ split_sentences EmptyString = [].
Proof.
  split; [|reflexivity].
  apply (sentence_loop_ok ai_message [] EmptyString); [constructor|simpl; lia].
Qed.

(** *** The loop is the greedy splitting *)

Lemma never_closed_nil : never_closed EmptyString.
Proof.
  split.
  - intros p q H Hp _. symmetry in H. by apply append_eq_nil in H as [? _].
  - intros [(p & c & H & _)|H]; [|simpl in H; lia].
    symmetry in H. by apply snoc_not_nil in H.
Qed.

Lemma never_closed_prefix (f p q : string) :
  never_closed f → f = p +:+ q → p ≠ EmptyString → ¬ closes p.
Proof.
  intros [Hopen Hf] H Hp. destruct (decide (q = EmptyString)) as [->|Hq].
  - rewrite append_nil_r in H. by subst.
  - by apply (Hopen p q).
Qed.

(** one more character: the prefixes to look at are those of the fragment
    so far *)
Lemma open_before_snoc (f : string) (char : ascii) :
  never_closed f → open_before (snoc f char).
Proof.
  intros Hf p q H Hp Hq. apply snoc_eq_append in H as (q' & _ & ->); [|done].
  by apply (never_closed_prefix (p +:+ q') p q').
Qed.

Lemma closes_snoc (f : string) (char : ascii) :
  closes (snoc f char) ↔ char ∈ sentence_ends ∨ (80 ≤ String.length (snoc f char))%nat.
Proof.
  split; (intros [H|H]; [left|by right]).
  - destruct H as (p & c & Heq & Hc). by apply snoc_inj in Heq as [_ ->].
  - by exists f, char.
Qed.

Lemma sentence_loop_greedy (ai_message : string) :
  ∀ sentences current_sentence,
    never_closed current_sentence →
    ∃ fragments,
      add_remaining (sentence_loop ai_message sentences current_sentence)
      = sentences ++ fragments
      ∧ Greedy (current_sentence +:+ ai_message) fragments.
Proof.
  induction ai_message as [|char rest IH]; intros sentences cur Hcur; simpl.
  - rewrite append_nil_r. unfold add_remaining; simpl. case_decide as Hnil.
    + exists []. rewrite app_nil_r, Hnil. split; [done|constructor].
    + exists [cur]. split; [done|]. by constructor.
  - case_decide as Hbreak.
    + destruct (IH (sentences ++ [snoc cur char]) EmptyString never_closed_nil)
        as (fragments & Heq & Hgreedy).
      exists (snoc cur char :: fragments). rewrite Heq, <- app_assoc. split; [done|].
      rewrite <- snoc_append. rewrite append_nil_l in Hgreedy.
      constructor; [apply snoc_not_nil|by apply open_before_snoc|by apply closes_snoc|done].
    + destruct (IH sentences (snoc cur char)) as (fragments & Heq & Hgreedy).
      { split; [by apply open_before_snoc|by rewrite closes_snoc]. }
      exists fragments. by rewrite <- snoc_append.
Qed.

(** the greedy splitting of a text is unique *)
Lemma Greedy_unique (text : string) (fragments : list string) :
  Greedy text fragments →
  ∀ text' fragments', Greedy text' fragments' → text = text' → fragments = fragments'.
Proof.
  induction 1 as [|f rest fragments Hf Hopen Hclose Hrest IH|f Hf Hnever];
    intros text' fragments' H' Heq; destruct H' as [|f' rest' fs' Hf' Hopen' Hclose' Hrest'|f' Hf' Hnever'].
  - done.
  - symmetry in Heq. by apply append_eq_nil in Heq as [? _].
  - by subst.
  - by apply append_eq_nil in Heq as [? _].
  - assert (f = f') as <-.
    { destruct (append_eq_append _ _ _ _ Heq) as [(r & -> & ->)|(r & -> & ->)];
        (destruct (decide (r = EmptyString)) as [->|Hr]; [by rewrite append_nil_r|]).
      - by destruct (Hopen' f r).
      - by destruct (Hopen f' r). }
    apply (inj (String.app f)) in Heq. f_equal. by apply (IH rest' fs').
  - subst f'. by destruct (never_closed_prefix _ f rest Hnever').
  - done.
  - subst f. by destruct (never_closed_prefix _ f' rest' Hnever).
  - by subst.
Qed.

(** *** Texts without sentence ends *)

Lemma chars_append (s t : string) : chars (s +:+ t) = chars s ++ chars t.
Proof.
  induction s as [|c s IH]; [done|].
  rewrite append_cons. unfold chars in *. simpl. by rewrite IH.
Qed.

(** characters that end no sentence accumulate until the fragment has 80 *)
Lemma sentence_loop_fill (a : string) :
  ∀ current_sentence rest sentences,
    Forall (λ char, char ∉ sentence_ends) (chars a) →
    a ≠ EmptyString →
    (String.length current_sentence + String.length a = 80)%nat →
    sentence_loop (a +:+ rest) sentences current_sentence
    = sentence_loop rest (sentences ++ [current_sentence +:+ a]) EmptyString.
Proof.
  induction a as [|char a IH]; intros cur rest sentences Hno Hne Hlen; [done|].
  rewrite append_cons. simpl. apply Forall_cons in Hno as [Hchar Hno].
  pose proof (length_snoc cur char) as Hsnoc. simpl in Hlen.
  destruct a as [|char' a']; simpl in Hlen.
  - rewrite append_nil_l. rewrite decide_True by (right; lia). done.
  - rewrite decide_False by (intros [?|?]; [done|simpl in *; lia]).
    rewrite IH; [|done|done|simpl in *; lia]. by rewrite snoc_append.
Qed.

(** C6: the fragments are the greedy splitting of the text, the only one:
    each fragment is closed as soon as it ends with a sentence end or has 80
    characters, and what remains at the end is the last fragment.  A text of
    160 characters without sentence ends has two fragments of 80 characters. *)
Theorem split_sentences_greedy (ai_message : string) :
  Greedy ai_message (split_sentences ai_message)
  ∧ (∀ fragments, Greedy ai_message fragments → fragments = split_sentences ai_message)
  ∧ (String.length ai_message = 160%nat →
     Forall (λ char, char ∉ sentence_ends) (chars ai_message) →
     ∃ a b, split_sentences ai_message = [a; b]
            ∧ String.length a = 80%nat ∧ String.length b = 80%nat).
Proof.
  assert (Greedy ai_message (split_sentences ai_message)) as Hgreedy.
  { destruct (sentence_loop_greedy ai_message [] EmptyString never_closed_nil)
      as (fragments & Heq & H).
    unfold split_sentences. by rewrite Heq. }
  split; [done|]. split.
  { intros fragments H. by apply (Greedy_unique _ _ H _ _ Hgreedy). }
  intros Hlen Hno.
  destruct (split_at 80 ai_message) as (a & b & -> & Ha); [lia|].
  rewrite length_append in Hlen. rewrite chars_append in Hno.
  apply Forall_app in Hno as [Hnoa Hnob].
  assert (a ≠ EmptyString) by (intros ->; simpl in Ha; lia).
  assert (b ≠ EmptyString) by (intros ->; simpl in Hlen; lia).
  exists a, b. split; [|lia]. unfold split_sentences.
  rewrite sentence_loop_fill by (simpl; done || lia).
  rewrite <- (append_nil_r b) at 1.
  rewrite sentence_loop_fill by (simpl; done || lia).
  reflexivity.
Qed.

Lemma split_sentences_greedy_witness :
  let text := string_of_list_ascii (replicate 160 "a"%char) in
  ∃ a b, split_sentences text = [a; b]
         ∧ String.length a = 80%nat ∧ String.length b = 80%nat.
Proof.
  intros text. apply (split_sentences_greedy text).
  - reflexivity.
  - apply (bool_decide_unpack _). vm_compute. exact I.
Defined.

(** ** Dicts *)

Section DictFacts.
Context {V : Type}.
Implicit Types (d : list (string * V)) (k : string) (v : V).

Lemma Dict_get_None k d : Dict.get k d = None ↔ k ∉ Dict.keys d.
Proof.
  unfold Dict.keys. induction d as [|[k' v'] d IH]; simpl.
  - split; [intros _; apply not_elem_of_nil|done].
  - rewrite not_elem_of_cons, <- IH. case_decide as Hk.
    + split; [done|]. by intros [? _].
    + split; [intros ?; split; congruence|by intros [_ ?]].
Qed.

Lemma Dict_get_elem k v d : Dict.get k d = Some v → (k, v) ∈ d.
Proof.
  induction d as [|[k' v'] d IH]; simpl; [done|].
  case_decide; intros ?; simplify_eq; [left|right; auto].
Qed.

Lemma Dict_elem_keys k v d : (k, v) ∈ d → k ∈ Dict.keys d.
Proof. intros H. by apply (list_elem_of_fmap_2 fst) in H. Qed.

Lemma Dict_elem_get k v d : Dict.wf d → (k, v) ∈ d → Dict.get k d = Some v.
Proof.
  unfold Dict.wf, Dict.keys. induction d as [|[k' v'] d IH]; simpl.
  - intros _ H. by apply elem_of_nil in H.
  - intros [Hk' Hd]%NoDup_cons [H|H]%elem_of_cons; simplify_eq.
    + by rewrite decide_True.
    + rewrite decide_False; [auto|]. intros ->. by apply Hk', (Dict_elem_keys k v).
Qed.

Lemma Dict_get_iff k v d : Dict.wf d → Dict.get k d = Some v ↔ (k, v) ∈ d.
Proof. intros Hwf. split; [apply Dict_get_elem|by apply Dict_elem_get]. Qed.

Lemma Dict_keys_filter (P : string * V → Prop) `{!∀ p, Decision (P p)} d :
  Dict.keys (filter P d) `sublist_of` Dict.keys d.
Proof.
  unfold Dict.keys. induction d as [|p d IH]; simpl; [done|].
  rewrite filter_cons. case_decide; simpl; by constructor.
Qed.

Lemma Dict_wf_filter (P : string * V → Prop) `{!∀ p, Decision (P p)} d :
  Dict.wf d → Dict.wf (filter P d).
Proof. unfold Dict.wf. intros Hwf. eapply sublist_NoDup; [done|apply Dict_keys_filter]. Qed.

Lemma Dict_get_filter (P : string * V → Prop) `{!∀ p, Decision (P p)} k v d :
  Dict.wf d → Dict.get k (filter P d) = Some v ↔ P (k, v) ∧ Dict.get k d = Some v.
Proof.
  intros Hwf. rewrite !Dict_get_iff by auto using Dict_wf_filter.
  apply list_elem_of_filter.
Qed.

Lemma Dict_get_filter_None (P : string * V → Prop) `{!∀ p, Decision (P p)} k d :
  Dict.get k d = None → Dict.get k (filter P d) = None.
Proof.
  rewrite !Dict_get_None. intros Hk Hin. apply Hk.
  eapply elem_of_sublist; [done|apply Dict_keys_filter].
Qed.

Lemma Dict_get_del_eq k d : Dict.get k (Dict.del k d) = None.
Proof.
  apply Dict_get_None. unfold Dict.keys, Dict.del.
  intros ([k' v] & -> & [H _]%list_elem_of_filter)%list_elem_of_fmap. done.
Qed.

Lemma Dict_get_del_ne k k' d : k ≠ k' → Dict.get k' (Dict.del k d) = Dict.get k' d.
Proof.
  intros Hne. unfold Dict.del. induction d as [|[k0 v0] d IH]; [done|].
  rewrite filter_cons. simpl. destruct (decide (k0 ≠ k)) as [H0|H0%dec_stable]; simpl.
  - by rewrite IH.
  - subst k0. by rewrite IH, decide_False.
Qed.

Lemma Dict_set_absent k v d : k ∉ Dict.keys d → Dict.set k v d = d ++ [(k, v)].
Proof.
  unfold Dict.keys. induction d as [|[k' v'] d IH]; simpl; [done|].
  intros [Hne Hk]%not_elem_of_cons. rewrite decide_False by done. by rewrite IH.
Qed.

Lemma Dict_get_set_eq k v d : Dict.get k (Dict.set k v d) = Some v.
Proof.
  induction d as [|[k' v'] d IH]; simpl; [by rewrite decide_True|].
  case_decide; simpl; [by rewrite decide_True|by rewrite decide_False].
Qed.

Lemma Dict_get_set_ne k k' v d : k ≠ k' → Dict.get k' (Dict.set k v d) = Dict.get k' d.
Proof.
  intros Hne. induction d as [|[k0 v0] d IH]; simpl; [by rewrite decide_False|].
  destruct (decide (k0 = k)) as [->|H0]; simpl.
  - by rewrite !decide_False.
  - by rewrite IH.
Qed.

Lemma Dict_keys_set k v d :
  Dict.keys (Dict.set k v d)
  = if decide (k ∈ Dict.keys d) then Dict.keys d else Dict.keys d ++ [k].
Proof.
  induction d as [|[k' v'] d IH].
  - simpl. destruct (decide (k ∈ [])) as [?%elem_of_nil|]; done.
  - cbn [Dict.set]. unfold Dict.keys in *. destruct (decide (k' = k)) as [->|Hne].
    + rewrite !fmap_cons. simpl. rewrite decide_True; [done|left].
    + rewrite !fmap_cons, IH. simpl. destruct (decide (k ∈ d.*1)) as [Hin|Hnin].
      * rewrite decide_True; [done|by right].
      * rewrite decide_False; [done|]. rewrite not_elem_of_cons. naive_solver.
Qed.

Lemma Dict_wf_set k v d : Dict.wf d → Dict.wf (Dict.set k v d).
Proof.
  unfold Dict.wf. rewrite Dict_keys_set. case_decide as Hin; [done|].
  intros Hwf. apply NoDup_app. split_and!; [done| |apply NoDup_singleton].
  intros x Hx ->%list_elem_of_singleton. done.
Qed.

Lemma Dict_length_keys d : length (Dict.keys d) = length d.
Proof. apply length_fmap. Qed.

Lemma Dict_length_set k v d :
  length (Dict.set k v d)
  = if decide (k ∈ Dict.keys d) then length d else S (length d).
Proof.
  rewrite <- !Dict_length_keys, Dict_keys_set.
  case_decide; [done|]. rewrite length_app. simpl. lia.
Qed.

(** deleting a list of keys one after the other *)
Lemma Dict_foldl_del (ks : list string) d :
  foldl (λ d k, Dict.del k d) d ks = filter (λ p, p.1 ∉ ks) d.
Proof.
  revert d. induction ks as [|k ks IH]; intros d; simpl.
  - symmetry. induction d as [|p d IHd]; [done|].
    rewrite filter_cons_True by apply not_elem_of_nil. by f_equal.
  - rewrite IH. unfold Dict.del. rewrite list_filter_filter.
    apply list_filter_iff. intros p. rewrite not_elem_of_cons. tauto.
Qed.

(** deleting a key that is there shortens the dict *)
Lemma Dict_length_del k d : k ∈ Dict.keys d → (length (Dict.del k d) < length d)%nat.
Proof.
  unfold Dict.keys. intros ([k' v] & -> & Hin)%list_elem_of_fmap.
  apply (length_filter_lt _ _ (k', v)); [done|]. simpl. by intros ?.
Qed.

(** the first key of a dict with distinct keys: deleting it leaves the rest *)
Lemma Dict_del_head k v d : Dict.wf ((k, v) :: d) → Dict.del k ((k, v) :: d) = d.
Proof.
  unfold Dict.wf, Dict.keys, Dict.del. rewrite fmap_cons. simpl.
  intros [Hk _]%NoDup_cons. rewrite filter_cons_False by (simpl; by intros ?).
  induction d as [|[k' v'] d IH]; [done|].
  rewrite fmap_cons in Hk. apply not_elem_of_cons in Hk as [Hne Hk].
  rewrite filter_cons_True by (simpl; auto). f_equal. auto.
Qed.

End DictFacts.

(** ** [min] with a key *)

Section MinBy.
Context {A : Type} (key : A → Z).

(** the running best after [pre ++ best :: mid] has been read *)
Lemma min_by_first_gen (rest : list A) :
  ∀ pre best mid,
    (∀ x, x ∈ pre → key best < key x) →
    (∀ x, x ∈ mid → key best ≤ key x) →
    ∃ l1 l2,
      pre ++ best :: mid ++ rest = l1 ++ min_by key best rest :: l2
      ∧ (∀ x, x ∈ l1 → key (min_by key best rest) < key x)
      ∧ (∀ x, x ∈ l2 → key (min_by key best rest) ≤ key x).
Proof.
  induction rest as [|x rest IH]; intros pre best mid Hpre Hmid; simpl.
  - exists pre, mid. by rewrite app_nil_r.
  - case_decide as Hlt.
    + destruct (IH (pre ++ best :: mid) x []) as (l1 & l2 & Heq & H1 & H2).
      * intros y [Hy|[->|Hy]%elem_of_cons]%elem_of_app.
        -- specialize (Hpre y Hy). lia.
        -- done.
        -- specialize (Hmid y Hy). lia.
      * intros y Hy. by apply elem_of_nil in Hy.
      * exists l1, l2. split; [|done]. rewrite <- Heq. by rewrite <- !app_assoc.
    + destruct (IH pre best (mid ++ [x])) as (l1 & l2 & Heq & H1 & H2).
      * done.
      * intros y [Hy| ->%list_elem_of_singleton]%elem_of_app; [auto|lia].
      * exists l1, l2. split; [|done]. rewrite <- Heq. by rewrite <- !app_assoc.
Qed.

(** [min] returns the first element whose key is minimal *)
Lemma min_by_first (best : A) (rest : list A) :
  ∃ l1 l2,
    best :: rest = l1 ++ min_by key best rest :: l2
    ∧ (∀ x, x ∈ l1 → key (min_by key best rest) < key x)
    ∧ (∀ x, x ∈ l2 → key (min_by key best rest) ≤ key x).
Proof.
  destruct (min_by_first_gen rest [] best []) as (l1 & l2 & Heq & H);
    [by intros ? ?%elem_of_nil..|].
  by exists l1, l2.
Qed.

Lemma min_by_elem (best : A) (rest : list A) : min_by key best rest ∈ best :: rest.
Proof.
  destruct (min_by_first best rest) as (l1 & l2 & -> & _).
  apply elem_of_app. right. left.
Qed.

(** among equal keys the first element wins *)
Lemma min_by_head (best : A) (rest : list A) :
  (∀ x, x ∈ rest → key best ≤ key x) → min_by key best rest = best.
Proof.
  induction rest as [|x rest IH]; intros Hge; simpl; [done|].
  rewrite decide_False.
  - apply IH. intros y Hy. apply Hge. by right.
  - assert (key best ≤ key x) by (apply Hge; left). lia.
Qed.

End MinBy.

(** ** The session store *)

Lemma filter_ext_elem {A} (P Q : A → Prop) `{!∀ x, Decision (P x), !∀ x, Decision (Q x)}
    (l : list A) :
  (∀ x, x ∈ l → P x ↔ Q x) → filter P l = filter Q l.
Proof.
  induction l as [|x l IH]; intros Hiff; [done|].
  rewrite !filter_cons. rewrite IH by (intros y Hy; apply Hiff; by right).
  destruct (Hiff x) as [H1 H2]; [left|]. by repeat case_decide; try tauto.
Qed.

Lemma filter_all {A} (P : A → Prop) `{!∀ x, Decision (P x)} (l : list A) :
  Forall P l → filter P l = l.
Proof.
  induction 1 as [|x l Hx Hl IH]; [done|]. by rewrite filter_cons_True, IH.
Qed.

#[global] Arguments _clean_expired_sessions : simpl never.
#[global] Arguments _remove_oldest_session : simpl never.

Section Store.
Implicit Types (self : SessionManager) (w : World) (data : SessionData).

(** the sweep keeps the records whose key is not among the expired keys *)
Lemma clean_sessions t self :
  sessions (_clean_expired_sessions t self)
  = filter (λ p, p.1 ∉ (filter (λ p, expired self t p.2) (sessions self)).*1)
      (sessions self).
Proof. unfold _clean_expired_sessions. simpl. apply Dict_foldl_del. Qed.

(** with distinct keys these are the records that are not expired *)
Lemma clean_sessions_wf t self :
  Dict.wf (sessions self) →
  sessions (_clean_expired_sessions t self)
  = filter (λ p, ¬ expired self t p.2) (sessions self).
Proof.
  intros Hwf. rewrite clean_sessions. apply filter_ext_elem.
  intros [k data] Hin. simpl. split.
  - intros Hk Hexp. apply Hk. apply (list_elem_of_fmap_2' fst _ (k, data)); [|done].
    by apply list_elem_of_filter.
  - intros Hnexp ([k' data'] & Hk & [Hexp Hin']%list_elem_of_filter)%list_elem_of_fmap.
    simpl in *. subst k'. apply Hnexp.
    apply (Dict_elem_get _ _ _ Hwf) in Hin, Hin'. congruence.
Qed.

(** a sweep that finds nothing expired changes nothing *)
Lemma clean_sessions_fresh t self :
  Forall (λ p, ¬ expired self t p.2) (sessions self) →
  sessions (_clean_expired_sessions t self) = sessions self.
Proof.
  intros Hall. rewrite clean_sessions.
  replace (filter (λ p, expired self t p.2) (sessions self)) with (@nil (string * SessionData)).
  - apply filter_all, Forall_forall. intros p _. apply not_elem_of_nil.
  - symmetry. induction Hall as [|p d Hp Hd IH]; [done|]. by rewrite filter_cons_False.
Qed.

Lemma clean_length t self :
  (length (sessions (_clean_expired_sessions t self)) ≤ length (sessions self))%nat.
Proof. rewrite clean_sessions. apply length_filter. Qed.

Lemma clean_wf t self :
  Dict.wf (sessions self) → Dict.wf (sessions (_clean_expired_sessions t self)).
Proof. rewrite clean_sessions. apply Dict_wf_filter. Qed.

(** whatever the sweep leaves is not expired *)
Lemma clean_not_expired t self k data :
  (k, data) ∈ sessions (_clean_expired_sessions t self) → ¬ expired self t data.
Proof.
  rewrite clean_sessions. intros [Hk Hin]%list_elem_of_filter Hexp. apply Hk.
  apply (list_elem_of_fmap_2' fst _ (k, data)); [|done]. by apply list_elem_of_filter.
Qed.

(** and it was there before *)
Lemma clean_elem t self k data :
  (k, data) ∈ sessions (_clean_expired_sessions t self) → (k, data) ∈ sessions self.
Proof. rewrite clean_sessions. by intros [_ ?]%list_elem_of_filter. Qed.

(** the two branches of [get_history] *)
Lemma get_history_hit t1 t2 session_id w data :
  let self := _clean_expired_sessions t1 (session_manager w) in
  Dict.get session_id (sessions self) = Some data →
  get_history t1 t2 session_id w
  = (history data,
     {| session_manager :=
          with_sessions
            (Dict.set session_id {| history := history data; last_access := t2 |}
               (sessions self)) self;
        heap := heap w |}).
Proof. intros self H. unfold get_history. fold self. by rewrite H. Qed.

Lemma get_history_miss t1 t2 session_id w :
  let self := _clean_expired_sessions t1 (session_manager w) in
  let self' :=
    if decide (max_sessions self ≤ Z.of_nat (length (sessions self)))
    then _remove_oldest_session self else self in
  Dict.get session_id (sessions self) = None →
  get_history t1 t2 session_id w
  = (length (heap w),
     {| session_manager :=
          with_sessions
            (sessions self' ++ [(session_id, {| history := length (heap w); last_access := t2 |})])
            self';
        heap := heap w ++ [[]] |}).
Proof.
  intros self self' H. unfold get_history. fold self. rewrite H. simpl. fold self'.
  rewrite Dict_set_absent; [done|].
  apply Dict_get_None. subst self'. case_decide; [|done].
  unfold _remove_oldest_session. destruct (Dict.keys (sessions self)); [done|]. simpl.
  destruct (decide (min_by (last_access_of self) s l = session_id)) as [->|Hne].
  - apply Dict_get_del_eq.
  - by rewrite Dict_get_del_ne.
Qed.

End Store.

(** ** Capacity *)

(** projections of the records that [get_history] builds *)
Ltac store_simpl :=
  cbn [fst snd session_manager heap sessions with_sessions max_sessions expiry_hours].

Section Capacity.
Implicit Types (self : SessionManager) (w : World) (data : SessionData).

Lemma clean_max_sessions t self :
  max_sessions (_clean_expired_sessions t self) = max_sessions self.
Proof. reflexivity. Qed.

Lemma clean_expiry_hours t self :
  expiry_hours (_clean_expired_sessions t self) = expiry_hours self.
Proof. reflexivity. Qed.

Lemma remove_oldest_length self :
  sessions self ≠ [] →
  (length (sessions (_remove_oldest_session self)) < length (sessions self))%nat.
Proof.
  intros Hne. unfold _remove_oldest_session.
  destruct (Dict.keys (sessions self)) as [|k ks] eqn:Hkeys.
  - destruct (sessions self); [done|discriminate].
  - simpl. apply Dict_length_del. rewrite Hkeys. apply min_by_elem.
Qed.

Lemma get_history_config t1 t2 session_id w :
  let w' := (get_history t1 t2 session_id w).2 in
  max_sessions (session_manager w') = max_sessions (session_manager w)
  ∧ expiry_hours (session_manager w') = expiry_hours (session_manager w).
Proof.
  unfold get_history.
  destruct (Dict.get _ _); simpl; [done|].
  case_decide; [|done]. unfold _remove_oldest_session.
  by destruct (Dict.keys _).
Qed.

(** one call keeps the store within a capacity of at least one *)
Lemma get_history_size t1 t2 session_id w :
  1 ≤ max_sessions (session_manager w) →
  Z.of_nat (size w) ≤ max_sessions (session_manager w) →
  Z.of_nat (size (get_history t1 t2 session_id w).2) ≤ max_sessions (session_manager w).
Proof.
  intros HN Hsize. unfold size, store in *.
  pose proof (clean_length t1 (session_manager w)) as Hclean.
  destruct (Dict.get session_id (sessions (_clean_expired_sessions t1 (session_manager w))))
    as [data|] eqn:Hget.
  - rewrite (get_history_hit _ _ _ _ _ Hget). store_simpl.
    rewrite Dict_length_set, decide_True; [lia|].
    eapply Dict_elem_keys, Dict_get_elem, Hget.
  - rewrite (get_history_miss _ _ _ _ Hget). store_simpl.
    rewrite length_app. cbn [length].
    rewrite clean_max_sessions.
    case_decide as Hcap; [|lia].
    pose proof (remove_oldest_length (_clean_expired_sessions t1 (session_manager w))) as Hlt.
    destruct (sessions (_clean_expired_sessions t1 (session_manager w))) eqn:Hs.
    + simpl in Hcap. lia.
    + specialize (Hlt ltac:(done)). lia.
Qed.

Lemma step_config w (a : Access) :
  max_sessions (session_manager (step w a)) = max_sessions (session_manager w)
  ∧ expiry_hours (session_manager (step w a)) = expiry_hours (session_manager w).
Proof. apply get_history_config. Qed.

Lemma run_config ops w :
  max_sessions (session_manager (run ops w)) = max_sessions (session_manager w)
  ∧ expiry_hours (session_manager (run ops w)) = expiry_hours (session_manager w).
Proof.
  revert w. induction ops as [|a ops IH]; intros w; [done|]. simpl.
  destruct (IH (step w a)) as [-> ->]. apply step_config.
Qed.

Lemma run_size ops w :
  1 ≤ max_sessions (session_manager w) →
  Z.of_nat (size w) ≤ max_sessions (session_manager w) →
  Z.of_nat (size (run ops w)) ≤ max_sessions (session_manager w).
Proof.
  revert w. induction ops as [|a ops IH]; intros w HN Hsize; [done|]. simpl.
  destruct (step_config w a) as [Hmax _]. rewrite <- Hmax. apply IH; rewrite Hmax; [done|].
  by apply get_history_size.
Qed.

(** *** New sessions while the clock stands still *)


Lemma remove_oldest_same_time self t :
  Dict.wf (sessions self) →
  Forall (λ p, last_access p.2 = t) (sessions self) →
  sessions (_remove_oldest_session self) = tail (sessions self).
Proof.
  intros Hwf Hall. unfold _remove_oldest_session.
  destruct (sessions self) as [|[k data] d] eqn:Hd; [done|].
  cbn [Dict.keys fmap list_fmap fst]. simpl.
  assert (∀ k', k' ∈ k :: d.*1 → last_access_of self k' = t) as Hkey.
  { change (k :: d.*1) with (((k, data) :: d).*1).
    intros k' ([k0 data0] & -> & Hin)%list_elem_of_fmap. unfold last_access_of.
    cbn [fst]. rewrite Hd, (Dict_elem_get _ _ _ Hwf Hin).
    by apply (proj1 (Forall_forall _ _) Hall (k0, data0)). }
  rewrite min_by_head.
  - by apply Dict_del_head.
  - intros k' Hk'. rewrite (Hkey k) by left. by rewrite (Hkey k') by (by right).
Qed.

Lemma step_same_time D N t session_id w :
  0 ≤ D → (1 ≤ N)%nat → settled D N t w → session_id ∉ Dict.keys (store w) →
  let w' := step w (access t session_id) in
  settled D N t w'
  ∧ Dict.keys (store w')
    = (if decide (N ≤ size w)%nat then tail (Dict.keys (store w)) else Dict.keys (store w))
      ++ [session_id].
Proof.
  intros HD HN (HeD & HeN & Hwf & Hall & Hsize) Hfresh w'.
  destruct (step_config w (access t session_id)) as [Hmax Hexp]. fold w' in Hmax, Hexp.
  assert (store w'
          = (if decide (N ≤ size w)%nat then tail (store w) else store w)
            ++ [(session_id, {| history := length (heap w); last_access := t |})])
    as Hstore.
  { subst w'. unfold step, access, size, store in *. cbn [at_sweep at_touch sid].
    assert (sessions (_clean_expired_sessions t (session_manager w))
            = sessions (session_manager w)) as Hclean.
    { apply clean_sessions_fresh. eapply Forall_impl; [exact Hall|].
      intros [k data]; simpl. unfold expired. intros ->. lia. }
    rewrite get_history_miss by (rewrite Hclean; by apply Dict_get_None).
    store_simpl. rewrite clean_max_sessions, Hclean, HeN.
    destruct (decide (N ≤ length (sessions (session_manager w)))%nat) as [Hcap|Hcap].
    - rewrite decide_True by lia.
      rewrite (remove_oldest_same_time _ t) by (by rewrite Hclean). by rewrite Hclean.
    - rewrite decide_False by lia. by rewrite Hclean. }
  unfold settled, Dict.wf.
  rewrite Hmax, Hexp. unfold size in *. rewrite Hstore. clear Hstore Hmax Hexp.
  unfold Dict.wf, Dict.keys in *. rewrite fmap_app, length_app. cbn [fmap list_fmap fst length].
  destruct (decide (N ≤ length (store w))%nat) as [Hcap|Hcap].
  - destruct (store w) as [|[k data] d]; [simpl in *; lia|].
    cbn [tail fmap list_fmap fst length] in *. split_and!; try done.
    + apply NoDup_cons in Hwf as [_ Hwf]. apply NoDup_app. split_and!; [done| |apply NoDup_singleton].
      intros x Hx ->%list_elem_of_singleton. apply Hfresh. by right.
    + apply Forall_cons in Hall as [_ Hall]. apply Forall_app. split; [done|].
      by apply Forall_singleton.
    + lia.
  - split_and!; try done.
    + apply NoDup_app. split_and!; [done| |apply NoDup_singleton].
      intros x Hx ->%list_elem_of_singleton. done.
    + apply Forall_app. split; [done|]. by apply Forall_singleton.
    + lia.
Qed.

Lemma run_same_time D N t (ids : list string) :
  0 ≤ D → (1 ≤ N)%nat → NoDup ids →
  ∀ w, settled D N t w → (∀ id, id ∈ ids → id ∉ Dict.keys (store w)) →
    let ks := Dict.keys (store w) ++ ids in
    Dict.keys (store (run (access t <$> ids) w)) = drop (length ks - N) ks.
Proof.
  intros HD HN. induction 1 as [|id ids Hid Hids IH]; intros w Hw Hfresh;
    pose proof Hw as (_ & _ & _ & _ & Hsize); unfold size in Hsize;
    pose proof (Dict_length_keys (store w)) as Hlen; cbn zeta.
  - rewrite app_nil_r.
    replace (length (Dict.keys (store w)) - N)%nat with 0%nat by lia. done.
  - destruct (step_same_time D N t id w HD HN Hw) as [Hw' Hkeys]; [apply Hfresh; left|].
    cbn zeta in Hw', Hkeys. cbn [fmap list_fmap run foldl].
    change (foldl step (step w (access t id)) (access t <$> ids))
      with (run (access t <$> ids) (step w (access t id))).
    rewrite IH; [|done|].
    + rewrite Hkeys. unfold size. clear Hkeys IH Hw' Hfresh Hw.
      destruct (decide (N ≤ length (store w))%nat) as [Hcap|Hcap].
      * destruct (Dict.keys (store w)) as [|k ks]; [simpl in *; lia|].
        cbn [tail]. rewrite <- !app_assoc. cbn [app length] in *.
        rewrite !length_app. cbn [length].
        replace (length ks + S (length ids) - N)%nat with (length ids) by lia.
        replace (S (length ks + S (length ids)) - N)%nat with (S (length ids)) by lia.
        done.
      * rewrite <- !app_assoc. done.
    + intros id' Hid'. rewrite Hkeys. intros [Hin| ->%list_elem_of_singleton]%elem_of_app.
      * apply (Hfresh id'); [by right|]. case_decide; [|done].
        destruct (Dict.keys (store w)); [done|by right].
      * done.
Qed.

End Capacity.

(** *** Claims on capacity *)

(** C1, as stated, at [max_sessions = 0]: the first call finds the empty
    store at capacity, has nothing to remove, and stores the session. *)
Lemma capacity_zero_counterexample :
  let w := run [access 0 "a"] (new_world 24 0) in
  max_sessions (session_manager w) = 0
  ∧ size w = 1%nat
  ∧ ¬ (Z.of_nat (size w) ≤ max_sessions (session_manager w)).
Proof. vm_compute. split_and!; [done..|]. intros H. by apply H. Qed.

(** C1 (amended): with [max_sessions = N ≥ 1], after every sequence of
    [get_history] calls on a new manager the store holds at most [N]
    sessions; and with a non-negative expiry, [N+1] distinct identifiers
    created while the clock stands still leave [N] sessions, all but the
    first identifier, in order. *)
Theorem capacity_bound (D : Z) (N : nat) :
  (1 ≤ N)%nat →
  (∀ ops, (size (run ops (new_world D (Z.of_nat N))) ≤ N)%nat)
  ∧ (0 ≤ D → ∀ t ids, NoDup ids → length ids = S N →
       let w := run (access t <$> ids) (new_world D (Z.of_nat N)) in
       size w = N ∧ Dict.keys (store w) = tail ids
       ∧ ∀ first, head ids = Some first → Dict.get first (store w) = None).
Proof.
  intros HN. split.
  - intros ops. apply Nat2Z.inj_le.
    apply (run_size ops (new_world D (Z.of_nat N))); cbn; lia.
  - intros HD t ids Hnodup Hlen w.
    assert (Dict.keys (store w) = tail ids) as Hkeys.
    { subst w. rewrite (run_same_time D N t ids HD HN Hnodup).
      - cbn [new_world store session_manager SessionManager_init sessions Dict.keys fmap
               list_fmap app].
        rewrite Hlen. replace (S N - N)%nat with 1%nat by lia. by destruct ids.
      - unfold settled, size, store, Dict.wf. cbn. split_and!; [done..|constructor|constructor|lia].
      - intros id _. cbn. apply not_elem_of_nil. }
    split_and!; [|done|].
    + unfold size. rewrite <- Dict_length_keys, Hkeys. destruct ids; simpl in *; lia.
    + intros first Hfirst. apply Dict_get_None. rewrite Hkeys.
      destruct ids as [|id ids]; simplify_eq/=. by apply NoDup_cons in Hnodup as [? _].
Qed.

Lemma capacity_bound_witness :
  (1 ≤ 2)%nat
  ∧ (∀ ops, (size (run ops (new_world 24 2)) ≤ 2)%nat)
  ∧ size (run (access 0 <$> ["a"; "b"; "c"]%string) (new_world 24 2)) = 2%nat.
Proof.
  assert (1 ≤ 2)%nat as H by lia.
  split_and!; [done|apply (capacity_bound 24 2 H)|].
  apply (proj2 (capacity_bound 24 2 H) ltac:(lia) 0 ["a"; "b"; "c"]%string).
  - apply (bool_decide_unpack _). vm_compute. exact I.
  - reflexivity.
Defined.

(** *** Eviction *)

Lemma elem_of_alist_split {V} (k : string) (d : list (string * V)) (K1 K2 : list string) :
  Dict.keys d = K1 ++ k :: K2 →
  ∃ l1 v l2, d = l1 ++ (k, v) :: l2 ∧ Dict.keys l1 = K1 ∧ Dict.keys l2 = K2.
Proof.
  unfold Dict.keys. intros (l1 & l' & -> & H' & ->)%fmap_app_inv.
  symmetry in H'. apply fmap_cons_inv in H' as ([k' v] & l2 & Hk & -> & ->).
  simpl in Hk. subst k'. by exists l1, v, l2.
Qed.

Lemma Dict_del_middle {V} (k : string) (v : V) (l1 l2 : list (string * V)) :
  Dict.wf (l1 ++ (k, v) :: l2) → Dict.del k (l1 ++ (k, v) :: l2) = l1 ++ l2.
Proof.
  unfold Dict.wf, Dict.keys, Dict.del. rewrite fmap_app, fmap_cons. cbn [fst].
  intros (H1 & Hdisj & [Hk H2]%NoDup_cons)%NoDup_app.
  rewrite filter_app, filter_cons_False by (cbn; by intros ?).
  rewrite !filter_all; [done| |].
  - apply Forall_forall. intros [k' v'] Hin. cbn. intros ->. apply Hk.
    by apply (list_elem_of_fmap_2' fst _ (k, v')).
  - apply Forall_forall. intros [k' v'] Hin. cbn. intros ->. apply (Hdisj k); [|left].
    by apply (list_elem_of_fmap_2' fst _ (k, v')).
Qed.

(** the record that [_remove_oldest_session] deletes from a non-empty store *)
Lemma remove_oldest_split (self : SessionManager) :
  Dict.wf (sessions self) → sessions self ≠ [] →
  ∃ l1 victim data l2,
    sessions self = l1 ++ (victim, data) :: l2
    ∧ (∀ k d, (k, d) ∈ l1 → last_access data < last_access d)
    ∧ (∀ k d, (k, d) ∈ l2 → last_access data ≤ last_access d)
    ∧ sessions (_remove_oldest_session self) = l1 ++ l2.
Proof.
  intros Hwf Hne. unfold _remove_oldest_session.
  destruct (Dict.keys (sessions self)) as [|k0 ks] eqn:Hkeys.
  { destruct (sessions self); [done|discriminate]. }
  destruct (min_by_first (last_access_of self) k0 ks) as (K1 & K2 & Hsplit & Hlt & Hle).
  set (victim := min_by (last_access_of self) k0 ks) in *.
  rewrite <- Hkeys in Hsplit.
  destruct (elem_of_alist_split _ _ _ _ Hsplit) as (l1 & data & l2 & Hd & <- & <-).
  assert (∀ k d, (k, d) ∈ sessions self → last_access_of self k = last_access d) as Hkey.
  { intros k d Hin. unfold last_access_of. by rewrite (Dict_elem_get _ _ _ Hwf Hin). }
  assert (last_access_of self victim = last_access data) as Hvictim.
  { apply Hkey. rewrite Hd. apply elem_of_app. right. left. }
  exists l1, victim, data, l2. split_and!; [done| | |].
  - intros k d Hin. rewrite <- Hvictim, <- (Hkey k d).
    + apply Hlt. by apply (Dict_elem_keys k d).
    + rewrite Hd. apply elem_of_app. by left.
  - intros k d Hin. rewrite <- Hvictim, <- (Hkey k d).
    + apply Hle. by apply (Dict_elem_keys k d).
    + rewrite Hd. apply elem_of_app. right. by right.
  - cbn [sessions with_sessions]. rewrite Hd. apply Dict_del_middle. by rewrite <- Hd.
Qed.

(** C2, as stated, at [max_sessions = 0]: the identifier is unseen, the
    swept store is at capacity, and no record is removed. *)
Lemma eviction_counterexample :
  let w := new_world 24 0 in
  let self := _clean_expired_sessions 0 (session_manager w) in
  Dict.get "a" (sessions self) = None
  ∧ max_sessions self ≤ Z.of_nat (length (sessions self))
  ∧ size (get_history 0 0 "a" w).2 = S (length (sessions self)).
Proof. vm_compute. split_and!; [done| |done]. discriminate. Qed.

(** C2 (amended): when the identifier is not in the swept store and the
    swept store is non-empty and at capacity, exactly one record leaves the
    store before the new one is appended: the first one, in insertion order,
    whose [last_access] is minimal.  In the scenario with [max_sessions = 2]
    the sessions left are "a" and "c". *)
Theorem eviction_removes_oldest :
  (∀ t1 t2 session_id w,
     let self := _clean_expired_sessions t1 (session_manager w) in
     Dict.wf (store w) →
     Dict.get session_id (sessions self) = None →
     max_sessions self ≤ Z.of_nat (length (sessions self)) →
     sessions self ≠ [] →
     ∃ l1 victim data l2,
       sessions self = l1 ++ (victim, data) :: l2
       ∧ (∀ k d, (k, d) ∈ l1 → last_access data < last_access d)
       ∧ (∀ k d, (k, d) ∈ l2 → last_access data ≤ last_access d)
       ∧ store (get_history t1 t2 session_id w).2
         = l1 ++ l2 ++ [(session_id, {| history := length (heap w); last_access := t2 |})])
  ∧ (let w := run [access 0 "a"; access 0 "b"; access 3600 "a"; access 7200 "c"]
                  (new_world 24 2) in
     Dict.keys (store w) = ["a"; "c"]%string ∧ Dict.get "b" (store w) = None).
Proof.
  split; [|by vm_compute].
  intros t1 t2 session_id w self Hwf Hget Hcap Hne.
  destruct (remove_oldest_split self) as (l1 & victim & data & l2 & Hd & Hlt & Hle & Hrem);
    [by apply clean_wf|done|].
  exists l1, victim, data, l2. split_and!; [done..|].
  unfold store. rewrite (get_history_miss _ _ _ _ Hget). store_simpl. fold self.
  rewrite decide_True by done. by rewrite Hrem, <- app_assoc.
Qed.

Lemma eviction_removes_oldest_witness :
  let w := run [access 0 "a"; access 0 "b"; access 3600 "a"] (new_world 24 2) in
  ∃ l1 victim data l2,
    sessions (_clean_expired_sessions 7200 (session_manager w)) = l1 ++ (victim, data) :: l2
    ∧ (∀ k d, (k, d) ∈ l1 → last_access data < last_access d)
    ∧ (∀ k d, (k, d) ∈ l2 → last_access data ≤ last_access d)
    ∧ store (get_history 7200 7200 "c" w).2
      = l1 ++ l2 ++ [("c"%string, {| history := length (heap w); last_access := 7200 |})].
Proof.
  intros w. apply (proj1 eviction_removes_oldest 7200 7200 "c"%string w).
  - apply (bool_decide_unpack _). vm_compute. exact I.
  - vm_compute. reflexivity.
  - vm_compute. discriminate.
  - vm_compute. discriminate.
Defined.

(** ** What one call does to the records *)

Section Records.
Implicit Types (self : SessionManager) (w : World) (data : SessionData).

Lemma remove_oldest_sessions self :
  ∃ P : string * SessionData → Prop, ∃ _ : ∀ p, Decision (P p),
    sessions (_remove_oldest_session self) = filter P (sessions self).
Proof.
  unfold _remove_oldest_session. destruct (Dict.keys (sessions self)) as [|k ks].
  - exists (λ _, True), _. symmetry. apply filter_all, Forall_forall. done.
  - by eexists _, _.
Qed.

Lemma remove_oldest_wf self :
  Dict.wf (sessions self) → Dict.wf (sessions (_remove_oldest_session self)).
Proof.
  destruct (remove_oldest_sessions self) as (P & HP & ->). apply Dict_wf_filter.
Qed.

Lemma remove_oldest_elem self k data :
  (k, data) ∈ sessions (_remove_oldest_session self) → (k, data) ∈ sessions self.
Proof.
  destruct (remove_oldest_sessions self) as (P & HP & ->).
  by intros [_ ?]%list_elem_of_filter.
Qed.

(** the store after a call, in both branches, is [Dict.set] on what the sweep
    and the eviction left *)
Lemma get_history_store t1 t2 session_id w :
  ∃ d,
    store (get_history t1 t2 session_id w).2
    = Dict.set session_id
        {| history := (get_history t1 t2 session_id w).1; last_access := t2 |} d
    ∧ (Dict.wf (store w) → Dict.wf d)
    ∧ (∀ k data, (k, data) ∈ d →
         (k, data) ∈ store w ∧ ¬ expired (session_manager w) t1 data).
Proof.
  unfold get_history, store.
  pose proof (clean_wf t1 (session_manager w)) as Hwf.
  pose proof (clean_elem t1 (session_manager w)) as Helem.
  pose proof (clean_not_expired t1 (session_manager w)) as Hexp.
  destruct (Dict.get session_id _) as [data|] eqn:Hget; store_simpl.
  - eexists. split; [done|]. split; [done|]. intros k d Hin. split; eauto.
  - rewrite clean_max_sessions. case_decide.
    + eexists. split; [done|]. split; [by intros ?%Hwf%remove_oldest_wf|].
      intros k d Hin%remove_oldest_elem. split; eauto.
    + eexists. split; [done|]. split; [done|]. intros k d Hin. split; eauto.
Qed.

Lemma get_history_wf t1 t2 session_id w :
  Dict.wf (store w) → Dict.wf (store (get_history t1 t2 session_id w).2).
Proof.
  intros Hwf. destruct (get_history_store t1 t2 session_id w) as (d & -> & Hd & _).
  by apply Dict_wf_set, Hd.
Qed.

(** the record under the accessed identifier *)
Lemma get_history_self t1 t2 session_id w :
  Dict.get session_id (store (get_history t1 t2 session_id w).2)
  = Some {| history := (get_history t1 t2 session_id w).1; last_access := t2 |}.
Proof.
  destruct (get_history_store t1 t2 session_id w) as (d & -> & _).
  apply Dict_get_set_eq.
Qed.

(** a record found under another identifier was there before, unchanged, and
    is not expired *)
Lemma get_history_other t1 t2 session_id w k data :
  Dict.wf (store w) → k ≠ session_id →
  Dict.get k (store (get_history t1 t2 session_id w).2) = Some data →
  Dict.get k (store w) = Some data ∧ ¬ expired (session_manager w) t1 data.
Proof.
  intros Hwf Hne. destruct (get_history_store t1 t2 session_id w) as (d & -> & Hd & Hin).
  rewrite Dict_get_set_ne by done. intros H%Dict_get_elem%Hin.
  destruct H as [H ?]. split; [|done]. by apply Dict_elem_get.
Qed.

(** the heap only grows, by one empty history at most *)
Lemma get_history_heap t1 t2 session_id w :
  heap (get_history t1 t2 session_id w).2 = heap w
  ∨ ((get_history t1 t2 session_id w).1 = length (heap w)
     ∧ heap (get_history t1 t2 session_id w).2 = heap w ++ [[]]).
Proof. unfold get_history. destruct (Dict.get _ _); [by left|by right]. Qed.

Lemma get_history_heap_lookup t1 t2 session_id w (l : loc) :
  (l < length (heap w))%nat →
  heap (get_history t1 t2 session_id w).2 !! l = heap w !! l.
Proof.
  intros Hl. destruct (get_history_heap t1 t2 session_id w) as [->|[_ ->]]; [done|].
  by apply lookup_app_l.
Qed.

End Records.

(** ** Access to an existing session *)


Lemma Dict_set_update {V} (f : V → V) (k : string) (v0 : V) (d : list (string * V)) :
  Dict.wf d → Dict.get k d = Some v0 →
  Dict.set k (f v0) d = (λ p, if decide (p.1 = k) then (p.1, f p.2) else p) <$> d.
Proof.
  unfold Dict.wf, Dict.keys. induction d as [|[k' v'] d IH]; [done|].
  rewrite !fmap_cons. cbn [Dict.get Dict.set fst snd].
  intros [Hk' Hd]%NoDup_cons. destruct (decide (k' = k)) as [->|Hne]; intros Hget.
  - simplify_eq. f_equal. clear IH Hd. induction d as [|[k' v'] d IH]; [done|].
    rewrite fmap_cons in Hk'. apply not_elem_of_cons in Hk' as [Hne Hk'].
    rewrite fmap_cons. cbn [fst]. rewrite decide_False by done. f_equal. auto.
  - f_equal. auto.
Qed.

(** the hit branch of [get_history], on the store before the sweep *)
Lemma get_history_existing t1 t2 session_id w data :
  Dict.wf (store w) →
  Dict.get session_id (store w) = Some data →
  ¬ expired (session_manager w) t1 data →
  let r := get_history t1 t2 session_id w in
  r.1 = history data
  ∧ heap r.2 = heap w
  ∧ store r.2
    = (λ p, if decide (p.1 = session_id) then (p.1, touch t2 p.2) else p)
      <$> filter (λ p, ¬ expired (session_manager w) t1 p.2) (store w).
Proof.
  intros Hwf Hget Hfresh r. subst r. unfold store in *.
  assert (Dict.get session_id (sessions (_clean_expired_sessions t1 (session_manager w)))
          = Some data) as Hswept.
  { rewrite clean_sessions_wf by done. by apply Dict_get_filter. }
  rewrite (get_history_hit _ _ _ _ _ Hswept). store_simpl. split_and!; [done..|].
  rewrite clean_sessions_wf in * by done.
  apply (Dict_set_update (touch t2)); [by apply Dict_wf_filter|done].
Qed.

(** C7: a call with an identifier that is stored and not expired returns the
    stored history, allocates nothing, and leaves in the store exactly the
    records that are not expired, in their order and unchanged but for the
    [last_access] of the accessed one; the capacity plays no part. *)
Theorem access_existing t1 t2 session_id w data :
  Dict.wf (store w) →
  Dict.get session_id (store w) = Some data →
  ¬ expired (session_manager w) t1 data →
  let r := get_history t1 t2 session_id w in
  r.1 = history data
  ∧ heap r.2 = heap w
  ∧ store r.2
    = (λ p, if decide (p.1 = session_id) then (p.1, touch t2 p.2) else p)
      <$> filter (λ p, ¬ expired (session_manager w) t1 p.2) (store w).
Proof. apply get_history_existing. Qed.

Lemma access_existing_witness :
  let w := run [access 0 "a"; access 0 "b"] (new_world 24 2) in
  (get_history 3600 3600 "a" w).1 = 0%nat
  ∧ heap (get_history 3600 3600 "a" w).2 = heap w.
Proof.
  intros w.
  destruct (access_existing 3600 3600 "a"%string w {| history := 0%nat; last_access := 0 |})
    as (H1 & H2 & _).
  - apply (bool_decide_unpack _). vm_compute. exact I.
  - vm_compute. reflexivity.
  - vm_compute. discriminate.
  - split; [exact H1|exact H2].
Defined.

(** ** Access to an expired session *)

(** C9: a call with an identifier whose record is expired finds the record
    gone after the sweep, allocates a new, empty history, returns it and
    stores it under the identifier with [last_access] set by this call. *)
Theorem access_expired t1 t2 session_id w data :
  Dict.get session_id (store w) = Some data →
  expired (session_manager w) t1 data →
  let r := get_history t1 t2 session_id w in
  Dict.get session_id (sessions (_clean_expired_sessions t1 (session_manager w))) = None
  ∧ heap w !! r.1 = None
  ∧ heap r.2 !! r.1 = Some []
  ∧ Dict.get session_id (store r.2) = Some {| history := r.1; last_access := t2 |}
  ∧ messages_of session_id r.2 = Some [].
Proof.
  intros Hget Hexp r.
  assert (Dict.get session_id (sessions (_clean_expired_sessions t1 (session_manager w)))
          = None) as Hswept.
  { rewrite clean_sessions. apply Dict_get_None. unfold Dict.keys.
    intros ([k d] & -> & [Hk _]%list_elem_of_filter)%list_elem_of_fmap. apply Hk.
    apply (list_elem_of_fmap_2' fst _ (k, data)); [|done].
    apply list_elem_of_filter. split; [done|]. by apply Dict_get_elem. }
  assert (r.1 = length (heap w) ∧ heap r.2 = heap w ++ [[]]) as [Hloc Hheap].
  { subst r. by rewrite (get_history_miss _ _ _ _ Hswept). }
  assert (heap r.2 !! r.1 = Some []) as Hnew.
  { rewrite Hheap, Hloc. by apply list_lookup_middle. }
  split_and!; [done| |done| |].
  - rewrite Hloc. by apply lookup_ge_None.
  - apply get_history_self.
  - unfold messages_of. subst r. by rewrite get_history_self.
Qed.

Lemma access_expired_witness :
  let w := run [access 0 "a"] (new_world 24 2) in
  let r := get_history 90000 90000 "a" w in
  heap r.2 !! r.1 = Some [] ∧ messages_of "a" r.2 = Some [].
Proof.
  intros w r.
  destruct (access_expired 90000 90000 "a"%string w {| history := 0%nat; last_access := 0 |})
    as (_ & _ & H1 & _ & H2).
  - vm_compute. reflexivity.
  - vm_compute. reflexivity.
  - split; [exact H1|exact H2].
Defined.

(** ** Expiry *)

(** C3, as stated: a session touched one second ago, with 24 hours of
    expiry, is gone after the next call, which had to make room for a new
    session. *)
Lemma expiry_counterexample :
  let w := run [access 0 "a"] (new_world 24 1) in
  let w' := (get_history 1 1 "b" w).2 in
  Dict.get "a" (store w) = Some {| history := 0%nat; last_access := 0 |}
  ∧ 1 - 0 < expiry_hours (session_manager w) * 3600
  ∧ Dict.get "a" (store w') = None.
Proof. by vm_compute. Qed.

(** the record created under an identifier whose record was expired *)
Lemma get_history_expired t1 t2 session_id w data :
  Dict.get session_id (store w) = Some data →
  expired (session_manager w) t1 data →
  (get_history t1 t2 session_id w).1 = length (heap w)
  ∧ Dict.get session_id (store (get_history t1 t2 session_id w).2)
    = Some {| history := (get_history t1 t2 session_id w).1; last_access := t2 |}.
Proof.
  intros Hget Hexp. split; [|apply get_history_self].
  assert (Dict.get session_id (sessions (_clean_expired_sessions t1 (session_manager w)))
          = None) as Hswept.
  { rewrite clean_sessions. apply Dict_get_None. unfold Dict.keys.
    intros ([k d] & -> & [Hk _]%list_elem_of_filter)%list_elem_of_fmap. apply Hk.
    apply (list_elem_of_fmap_2' fst _ (k, data)); [|done].
    apply list_elem_of_filter. split; [done|]. by apply Dict_get_elem. }
  by rewrite (get_history_miss _ _ _ _ Hswept).
Qed.

(** C3 (amended): for a non-negative expiry and a clock that does not go
    back during the call, after [get_history] no stored record is older, at
    the time of the sweep, than the expiry; a record that was older is gone
    (under the accessed identifier there is a new record instead); and a
    record that was younger is still there, unchanged if it is not the
    accessed one, unless the call had to add a new session to a store at
    capacity and this record was the least recently accessed one. *)
Theorem expiry_sweep t1 t2 session_id w :
  Dict.wf (store w) →
  0 ≤ expiry_hours (session_manager w) →
  t1 ≤ t2 →
  let D := expiry_hours (session_manager w) * 3600 in
  let self := _clean_expired_sessions t1 (session_manager w) in
  let r := get_history t1 t2 session_id w in
  (∀ k data, (k, data) ∈ store r.2 → t1 - last_access data ≤ D)
  ∧ (∀ k data, Dict.get k (store w) = Some data → D < t1 - last_access data →
       if decide (k = session_id)
       then Dict.get k (store r.2) = Some {| history := length (heap w); last_access := t2 |}
            ∧ r.1 = length (heap w)
       else Dict.get k (store r.2) = None)
  ∧ (∀ k data, Dict.get k (store w) = Some data → t1 - last_access data < D →
       Dict.get k (store r.2) = Some (if decide (k = session_id) then touch t2 data else data)
       ∨ (Dict.get session_id (sessions self) = None
          ∧ max_sessions self ≤ Z.of_nat (length (sessions self))
          ∧ ∀ k' data', (k', data') ∈ sessions self → last_access data ≤ last_access data')).
Proof.
  intros Hwf HD Ht D self r.
  pose proof (get_history_wf t1 t2 session_id w Hwf) as Hwf'. fold r in Hwf'.
  split_and!.
  - intros k data Hin%(Dict_elem_get _ _ _ Hwf').
    destruct (decide (k = session_id)) as [->|Hne].
    + subst r. rewrite get_history_self in Hin. simplify_eq. simpl. lia.
    + apply get_history_other in Hin as [_ Hexp]; [|done..]. unfold expired in Hexp. lia.
  - intros k data Hget Hold.
    destruct (decide (k = session_id)) as [->|Hne].
    + destruct (get_history_expired t1 t2 session_id w data Hget Hold) as [Hloc Hself].
      fold r in Hloc, Hself. by rewrite Hself, Hloc.
    + destruct (Dict.get k (store r.2)) as [data'|] eqn:Hget'; [|done].
      apply get_history_other in Hget' as [Hget' Hexp]; [|done..].
      assert (data' = data) as -> by congruence. by destruct Hexp.
  - intros k data Hget Hyoung.
    assert (¬ expired (session_manager w) t1 data) as Hfresh by (unfold expired; lia).
    assert ((k, data) ∈ sessions self) as Hin.
    { subst self. rewrite clean_sessions_wf by done. apply list_elem_of_filter.
      split; [done|by apply Dict_get_elem]. }
    pose proof (clean_wf t1 _ Hwf) as Hwfs. fold self in Hwfs.
    destruct (Dict.get session_id (sessions self)) as [data0|] eqn:Hswept.
    { left. subst r. unfold store. rewrite (get_history_hit _ _ _ _ _ Hswept). store_simpl.
      fold self. destruct (decide (k = session_id)) as [->|Hne].
      - rewrite Dict_get_set_eq. apply (Dict_elem_get _ _ _ Hwfs) in Hin. by simplify_eq.
      - rewrite Dict_get_set_ne by done. by apply Dict_elem_get. }
    assert (k ≠ session_id) as Hne.
    { intros ->. apply (Dict_elem_get _ _ _ Hwfs) in Hin. congruence. }
    rewrite decide_False by done.
    assert (store r.2 = sessions (if decide (max_sessions self ≤ Z.of_nat (length (sessions self)))
                                  then _remove_oldest_session self else self)
                        ++ [(session_id, {| history := length (heap w); last_access := t2 |})])
      as Hstore.
    { subst r. unfold store. by rewrite (get_history_miss _ _ _ _ Hswept). }
    destruct (decide (max_sessions self ≤ Z.of_nat (length (sessions self)))) as [Hcap|Hcap].
    + destruct (remove_oldest_split self Hwfs) as (l1 & victim & vdata & l2 & Hd & Hlt & Hle & Hrem).
      { intros Hnil. rewrite Hnil in Hin. by apply elem_of_nil in Hin. }
      rewrite Hrem in Hstore. rewrite Hd in Hin.
      apply elem_of_app in Hin as [Hin|[Hin|Hin]%elem_of_cons].
      * left. apply Dict_elem_get; [done|]. rewrite Hstore, !elem_of_app. auto.
      * right. simplify_eq. split_and!; [done..|]. intros k' data'. rewrite Hd.
        intros [Hin|[Hin|Hin]%elem_of_cons]%elem_of_app.
        -- specialize (Hlt _ _ Hin). lia.
        -- by simplify_eq.
        -- by apply (Hle k').
      * left. apply Dict_elem_get; [done|]. rewrite Hstore, !elem_of_app. auto.
    + left. apply Dict_elem_get; [done|]. rewrite Hstore, elem_of_app. auto.
Qed.

Lemma expiry_sweep_witness :
  let w := run [access 0 "a"; access 0 "b"] (new_world 24 2) in
  let r := get_history 90000 90000 "c" w in
  Dict.get "a" (store r.2) = None
  ∧ Dict.get "c" (store r.2) = Some {| history := 2%nat; last_access := 90000 |}.
Proof.
  intros w r.
  destruct (expiry_sweep 90000 90000 "c"%string w) as (_ & Hold & _).
  - apply (bool_decide_unpack _). vm_compute. exact I.
  - vm_compute. discriminate.
  - lia.
  - split.
    + apply (Hold "a"%string {| history := 0%nat; last_access := 0 |}); reflexivity.
    + reflexivity.
Defined.

(** ** Worlds *)

Section Worlds.
Implicit Types (self : SessionManager) (w : World) (data : SessionData).

(** the returned history is the stored one or a new object *)
Lemma get_history_loc t1 t2 session_id w :
  let r := get_history t1 t2 session_id w in
  (∃ data, (session_id, data) ∈ store w ∧ r.1 = history data ∧ heap r.2 = heap w)
  ∨ (r.1 = length (heap w) ∧ heap r.2 = heap w ++ [[]]).
Proof.
  unfold get_history, new_history, store.
  destruct (Dict.get session_id _) as [data|] eqn:Hget; store_simpl; [left|by right].
  exists data. split; [|done]. eapply clean_elem, Dict_get_elem, Hget.
Qed.

(** the records of the store after a call *)
Lemma get_history_elem t1 t2 session_id w k data :
  Dict.wf (store w) →
  (k, data) ∈ store (get_history t1 t2 session_id w).2 →
  (k = session_id
   ∧ data = {| history := (get_history t1 t2 session_id w).1; last_access := t2 |})
  ∨ (k ≠ session_id ∧ (k, data) ∈ store w).
Proof.
  intros Hwf Hin.
  apply (Dict_elem_get _ _ _ (get_history_wf t1 t2 session_id w Hwf)) in Hin.
  destruct (decide (k = session_id)) as [->|Hne].
  - left. rewrite get_history_self in Hin. by simplify_eq.
  - right. split; [done|].
    apply get_history_other in Hin as [Hin _]; [|done..]. by apply Dict_get_elem.
Qed.

Lemma get_history_World_wf t1 t2 session_id w :
  World_wf w → World_wf (get_history t1 t2 session_id w).2.
Proof.
  intros (Hwf & Hown & Halloc).
  pose proof (get_history_loc t1 t2 session_id w) as Hloc. cbn zeta in Hloc.
  assert (length (heap w) ≤ length (heap (get_history t1 t2 session_id w).2))%nat as Hgrow.
  { destruct Hloc as [(_ & _ & _ & ->)|[_ ->]]; [done|]. rewrite length_app. lia. }
  assert (∀ k data, k ≠ session_id → (k, data) ∈ store w →
            history data ≠ (get_history t1 t2 session_id w).1) as Hnew.
  { intros k data Hne Hin Heq.
    destruct Hloc as [(data0 & Hin0 & Hh & _)|[Hh _]].
    - apply Hne. apply (Hown _ _ _ _ Hin Hin0). congruence.
    - specialize (Halloc _ _ Hin). lia. }
  split_and!.
  - by apply get_history_wf.
  - intros k1 d1 k2 d2 [[-> ->]|[Hne1 Hin1]]%get_history_elem
      [[-> ->]|[Hne2 Hin2]]%get_history_elem; try done; cbn [history].
    + intros Heq. symmetry in Heq. by destruct (Hnew _ _ Hne2 Hin2).
    + intros Heq. by destruct (Hnew _ _ Hne1 Hin1).
    + by apply Hown.
  - intros k data [[-> ->]|[Hne Hin]]%get_history_elem; try done; cbn [history].
    + destruct Hloc as [(data0 & Hin0 & -> & ->)|[-> ->]]; [by apply (Halloc session_id)|].
      rewrite length_app. simpl. lia.
    + specialize (Halloc _ _ Hin). lia.
Qed.

Lemma run_World_wf ops w : World_wf w → World_wf (run ops w).
Proof.
  revert w. induction ops as [|a ops IH]; intros w Hw; [done|].
  apply IH, get_history_World_wf, Hw.
Qed.

Lemma new_world_wf D N : World_wf (new_world D N).
Proof.
  split_and!; [apply NoDup_nil_2|..].
  - intros k1 data1 k2 data2 Hin. by apply elem_of_nil in Hin.
  - intros k data Hin. by apply elem_of_nil in Hin.
Qed.

End Worlds.

(** ** Turns *)


Section Messages.
Implicit Types (w : World) (h l : loc) (msg : Message) (msgs : list Message).

Lemma add_message_store h msg w : store (add_message h msg w) = store w.
Proof. reflexivity. Qed.

Lemma add_message_lookup h msg w :
  heap (add_message h msg w) !! h = (λ msgs, msgs ++ [msg]) <$> heap w !! h.
Proof. apply list_lookup_alter_eq. Qed.

Lemma add_message_lookup_ne h l msg w :
  h ≠ l → heap (add_message h msg w) !! l = heap w !! l.
Proof. intros Hne. by apply list_lookup_alter_ne. Qed.

Lemma add_message_World_wf h msg w : World_wf w → World_wf (add_message h msg w).
Proof.
  intros (Hwf & Hown & Halloc). split_and!; [done..|].
  intros k data Hin. cbn [add_message heap]. rewrite length_alter. by apply (Halloc k).
Qed.

Lemma add_messages_store h msgs w : store (add_messages h msgs w) = store w.
Proof. reflexivity. Qed.

Lemma add_messages_lookup h msgs w :
  heap (add_messages h msgs w) !! h = (λ before, before ++ msgs) <$> heap w !! h.
Proof. apply list_lookup_alter_eq. Qed.

Lemma add_messages_lookup_ne h l msgs w :
  h ≠ l → heap (add_messages h msgs w) !! l = heap w !! l.
Proof. intros Hne. by apply list_lookup_alter_ne. Qed.

Lemma add_messages_World_wf h msgs w : World_wf w → World_wf (add_messages h msgs w).
Proof.
  intros (Hwf & Hown & Halloc). split_and!; [done..|].
  intros k data Hin. cbn [add_messages heap]. rewrite length_alter. by apply (Halloc k).
Qed.

End Messages.

Section TurnFacts.
Variable agent_executor : list Message → string → string + string.
Variable json_dumps_content : string → string.
Implicit Types (w : World) (content session_id e : string) (format_as_sse : bool).

Local Abbreviation invoke := (ainvoke agent_executor).
Local Abbreviation yield := (emit json_dumps_content).
Local Abbreviation turn := (generate_openai_stream agent_executor json_dumps_content).

(** the generator, step by step *)
Lemma generate_openai_stream_steps t1 t2 t3 t4 content session_id format_as_sse w :
  let r1 := get_history t1 t2 session_id w in
  let w1 := add_message r1.1 (Human content) r1.2 in
  let r2 := invoke t3 t4 session_id content w1 in
  turn t1 t2 t3 t4 content session_id format_as_sse w
  = match r2.1 with
    | inr ai_message =>
        (yield format_as_sse <$> split_sentences ai_message,
         add_message r1.1 (AI ai_message) r2.2)
    | inl e => ([yield format_as_sse (error_message e)], r2.2)
    end.
Proof.
  unfold generate_openai_stream.
  destruct (get_history t1 t2 session_id w) as [h w0]. cbn [fst snd].
  by destruct (invoke _ _ _ _ _) as [[e|ai_message] w2].
Qed.

Lemma ainvoke_steps t3 t4 session_id content w :
  let r := get_history t3 t4 session_id w in
  let result := agent_executor (default [] (heap r.2 !! r.1)) content in
  invoke t3 t4 session_id content w
  = (result, match result with
             | inr output => add_messages r.1 [Human content; AI output] r.2
             | inl _ => r.2
             end).
Proof.
  unfold ainvoke. destruct (get_history _ _ _ _) as [h w']. cbn [fst snd].
  by destruct (agent_executor _ _).
Qed.

(** the store after the call is the store [get_history] left *)
Lemma ainvoke_store t3 t4 session_id content w :
  store (invoke t3 t4 session_id content w).2 = store (get_history t3 t4 session_id w).2.
Proof. rewrite ainvoke_steps. cbn [snd]. by destruct (agent_executor _ _). Qed.

Lemma ainvoke_config t3 t4 session_id content w :
  expiry_hours (session_manager (invoke t3 t4 session_id content w).2)
  = expiry_hours (session_manager w).
Proof.
  rewrite ainvoke_steps. cbn [snd].
  destruct (agent_executor _ _); cbn [add_messages session_manager]; apply get_history_config.
Qed.

Lemma ainvoke_World_wf t3 t4 session_id content w :
  World_wf w → World_wf (invoke t3 t4 session_id content w).2.
Proof.
  intros Hw. rewrite ainvoke_steps. cbn [snd].
  destruct (agent_executor _ _); [|apply add_messages_World_wf]; by apply get_history_World_wf.
Qed.

(** a call whose agent raises leaves every history that exists as it was *)
Lemma ainvoke_heap t3 t4 session_id content w (l : loc) e :
  (invoke t3 t4 session_id content w).1 = inl e →
  (l < length (heap w))%nat →
  heap (invoke t3 t4 session_id content w).2 !! l = heap w !! l.
Proof.
  rewrite ainvoke_steps. cbn [fst snd]. intros -> Hl. by apply get_history_heap_lookup.
Qed.

(** when the record of the session has not expired at the call made by
    [ainvoke], the agent runs on the messages of the turn's history, the
    wrapper appends to that history, and the store still maps the session to
    it *)
Lemma ainvoke_same_history t3 t4 session_id content w h t2 msgs :
  World_wf w →
  Dict.get session_id (store w) = Some {| history := h; last_access := t2 |} →
  t3 - t2 ≤ expiry_hours (session_manager w) * 3600 →
  heap w !! h = Some msgs →
  let r := invoke t3 t4 session_id content w in
  r.1 = agent_executor msgs content
  ∧ heap r.2 !! h = Some (msgs ++ match r.1 with
                                   | inr output => [Human content; AI output]
                                   | inl _ => []
                                   end)
  ∧ (∀ l : loc, l ≠ h → heap r.2 !! l = heap w !! l)
  ∧ Dict.get session_id (store r.2) = Some {| history := h; last_access := t4 |}.
Proof.
  intros (Hwf & _) Hget Hfresh Hmsgs r. subst r.
  destruct (get_history_existing t3 t4 session_id w _ Hwf Hget) as (Hh & Hheap & _).
  { unfold expired. cbn [last_access]. lia. }
  cbn [history] in Hh.
  assert (Dict.get session_id (store (invoke t3 t4 session_id content w).2)
          = Some {| history := h; last_access := t4 |}) as Hstore.
  { rewrite ainvoke_store, <- Hh. apply get_history_self. }
  rewrite ainvoke_steps in *. cbn [fst snd] in *. rewrite Hh, Hheap, Hmsgs in *.
  cbn [default from_option Datatypes.id] in *.
  destruct (agent_executor msgs content) as [e|output].
  - rewrite Hheap, Hmsgs, app_nil_r. by split_and!.
  - split_and!; [done| |by intros l Hne; rewrite add_messages_lookup_ne, Hheap|done].
    by rewrite add_messages_lookup, Hheap, Hmsgs.
Qed.

End TurnFacts.

Section TurnClaims.
Variable agent_executor : list Message → string → string + string.
Variable json_dumps_content : string → string.
Implicit Types (w : World) (content session_id e : string) (format_as_sse : bool).

Local Abbreviation invoke := (ainvoke agent_executor).
Local Abbreviation yield := (emit json_dumps_content).
Local Abbreviation turn := (generate_openai_stream agent_executor json_dumps_content).

(** the history handed out by [get_history] is allocated *)
Lemma get_history_allocated t1 t2 session_id w :
  World_wf w →
  ∃ before, heap (get_history t1 t2 session_id w).2 !! (get_history t1 t2 session_id w).1
            = Some before.
Proof.
  intros Hw%(get_history_World_wf t1 t2 session_id). destruct Hw as (Hwf & _ & Halloc).
  apply lookup_lt_is_Some_2, (Halloc session_id {| history := _; last_access := t2 |}).
  apply Dict_get_elem, get_history_self.
Qed.

(** a new session starts with an empty history *)
Lemma get_history_fresh t1 t2 session_id w :
  Dict.get session_id (store w) = None →
  let r := get_history t1 t2 session_id w in
  r.1 = length (heap w) ∧ heap r.2 = heap w ++ [[]] ∧ heap r.2 !! r.1 = Some [].
Proof.
  intros Hget r. subst r.
  destruct (get_history_loc t1 t2 session_id w) as [(data & Hin & _)|[Hloc Hheap]].
  - apply Dict_get_None in Hget. by destruct Hget; apply (Dict_elem_keys _ data).
  - split_and!; [done..|]. rewrite Hloc, Hheap. by apply list_lookup_middle.
Qed.

(** the world in which [ainvoke] is entered *)
Lemma turn_entered t1 t2 content session_id w before :
  World_wf w →
  let r1 := get_history t1 t2 session_id w in
  let w1 := add_message r1.1 (Human content) r1.2 in
  heap r1.2 !! r1.1 = Some before →
  World_wf w1
  ∧ expiry_hours (session_manager w1) = expiry_hours (session_manager w)
  ∧ Dict.get session_id (store w1) = Some {| history := r1.1; last_access := t2 |}
  ∧ heap w1 !! r1.1 = Some (before ++ [Human content])
  ∧ (∀ l : loc, l ≠ r1.1 → (l < length (heap w))%nat → heap w1 !! l = heap w !! l)
  ∧ (∀ k d, k ≠ session_id → Dict.get k (store w1) = Some d → Dict.get k (store w) = Some d).
Proof.
  intros Hw r1 w1 Hbefore. subst w1. split_and!.
  - by apply add_message_World_wf, get_history_World_wf.
  - apply get_history_config.
  - rewrite add_message_store. apply get_history_self.
  - by rewrite add_message_lookup, Hbefore.
  - intros l Hne Hl. rewrite add_message_lookup_ne by done.
    by apply get_history_heap_lookup.
  - intros k d Hne. rewrite add_message_store. intros Hget.
    by apply get_history_other in Hget as [? _]; [|apply Hw|].
Qed.

(** a turn whose agent call returns, the record not having expired between
    the two calls of [get_history]: the history has the user message and the
    reply from the generator and from the wrapper *)
Lemma turn_completed t1 t2 t3 t4 content session_id format_as_sse w before ai_message :
  World_wf w →
  let r1 := get_history t1 t2 session_id w in
  heap r1.2 !! r1.1 = Some before →
  t3 - t2 ≤ expiry_hours (session_manager w) * 3600 →
  agent_executor (before ++ [Human content]) content = inr ai_message →
  let out := turn t1 t2 t3 t4 content session_id format_as_sse w in
  out.1 = yield format_as_sse <$> split_sentences ai_message
  ∧ World_wf out.2
  ∧ expiry_hours (session_manager out.2) = expiry_hours (session_manager w)
  ∧ Dict.get session_id (store out.2) = Some {| history := r1.1; last_access := t4 |}
  ∧ heap out.2 !! r1.1
    = Some (before ++ [Human content; Human content; AI ai_message; AI ai_message])
  ∧ (∀ l : loc, l ≠ r1.1 → (l < length (heap w))%nat → heap out.2 !! l = heap w !! l)
  ∧ (∀ k d, k ≠ session_id → Dict.get k (store out.2) = Some d → Dict.get k (store w) = Some d).
Proof.
  intros Hw r1 Hbefore Hfresh Hagent out.
  destruct (turn_entered t1 t2 content session_id w before Hw Hbefore)
    as (Hw1 & Hexp1 & Hget1 & Hheap1 & Hframe1 & Hother1).
  fold r1 in Hw1, Hexp1, Hget1, Hheap1, Hframe1, Hother1.
  set (w1 := add_message r1.1 (Human content) r1.2) in *.
  destruct (ainvoke_same_history agent_executor t3 t4 session_id content w1
              r1.1 t2 (before ++ [Human content]) Hw1 Hget1)
    as (Hres & Hheap2 & Hframe2 & Hget2); [by rewrite Hexp1|exact Hheap1|].
  rewrite Hagent in Hres. rewrite Hres in Hheap2.
  pose proof (ainvoke_World_wf agent_executor t3 t4 session_id content w1 Hw1) as Hw2.
  pose proof (ainvoke_config agent_executor t3 t4 session_id content w1) as Hexp2.
  assert (∀ k d, k ≠ session_id →
            Dict.get k (store (invoke t3 t4 session_id content w1).2) = Some d →
            Dict.get k (store w) = Some d) as Hother2.
  { intros k d Hne. rewrite ainvoke_store. intros Hget.
    apply get_history_other in Hget as [Hget _]; [|apply Hw1|done]. by apply Hother1. }
  subst out. rewrite generate_openai_stream_steps. fold r1 w1. rewrite Hres.
  cbn [fst snd]. split_and!; try done.
  - by apply add_message_World_wf.
  - cbn [add_message session_manager]. by rewrite Hexp2.
  - rewrite add_message_lookup, Hheap2. cbn [fmap option_fmap option_map].
    by rewrite <- !app_assoc.
  - intros l Hne Hl. rewrite add_message_lookup_ne, Hframe2 by done. by apply Hframe1.
Qed.

(** C4: when the agent call of a turn raises, the generator yields one
    string, the whole error message, which begins with
    "Error processing request:"; the history of the turn has gained the user
    message and nothing else; and unless the record expired between the two
    calls of [get_history], that history is the one stored for the session:
    for a new session it holds the user message alone. *)
Theorem failed_turn t1 t2 t3 t4 content session_id format_as_sse w e :
  World_wf w →
  let r1 := get_history t1 t2 session_id w in
  let w1 := add_message r1.1 (Human content) r1.2 in
  (invoke t3 t4 session_id content w1).1 = inl e →
  let out := turn t1 t2 t3 t4 content session_id format_as_sse w in
  out.1 = [yield format_as_sse (error_message e)]
  ∧ error_message e = "Error processing request:" +:+ " " +:+ e
  ∧ (∀ before, heap r1.2 !! r1.1 = Some before →
       heap out.2 !! r1.1 = Some (before ++ [Human content]))
  ∧ (t3 - t2 ≤ expiry_hours (session_manager w) * 3600 →
       (∀ before, heap r1.2 !! r1.1 = Some before →
          messages_of session_id out.2 = Some (before ++ [Human content]))
       ∧ (Dict.get session_id (store w) = None →
          messages_of session_id out.2 = Some [Human content])).
Proof.
  intros Hw r1 w1 Hfail out. subst out.
  rewrite generate_openai_stream_steps. fold r1 w1. rewrite Hfail. cbn [fst snd].
  assert (t3 - t2 ≤ expiry_hours (session_manager w) * 3600 →
          ∀ before, heap r1.2 !! r1.1 = Some before →
            messages_of session_id (invoke t3 t4 session_id content w1).2
            = Some (before ++ [Human content])) as Hstored.
  { intros Hfresh before Hbefore.
    destruct (turn_entered t1 t2 content session_id w before Hw Hbefore)
      as (Hw1 & Hexp1 & Hget1 & Hheap1 & _).
    fold r1 in Hw1, Hexp1, Hget1, Hheap1. fold w1 in Hw1, Hexp1, Hget1, Hheap1.
    destruct (ainvoke_same_history agent_executor t3 t4 session_id content w1
                r1.1 t2 (before ++ [Human content]) Hw1 Hget1)
      as (_ & Hheap2 & _ & Hget2); [by rewrite Hexp1|exact Hheap1|].
    rewrite Hfail in Hheap2. rewrite app_nil_r in Hheap2.
    unfold messages_of. rewrite Hget2. cbn. by rewrite Hheap2. }
  split_and!; [done|reflexivity| |].
  - intros before Hbefore.
    destruct (turn_entered t1 t2 content session_id w before Hw Hbefore)
      as (_ & _ & _ & Hheap1 & _).
    fold r1 in Hheap1. fold w1 in Hheap1.
    rewrite (ainvoke_heap agent_executor _ _ _ _ _ _ e); [done..|]. by eapply lookup_lt_Some.
  - intros Hfresh. split; [by apply Hstored|].
    intros Hnew. apply (Hstored Hfresh []).
    by destruct (get_history_fresh t1 t2 session_id w Hnew) as (_ & _ & ?).
Qed.

(** C8: two turns on a new session, one after the other, both answered, with
    no expiry in between.  The generator appends the user message and the
    reply (lines 219 and 233) and so does the wrapper it calls in between
    (lines 211-227): the stored history of the session holds every message
    of the two turns twice, eight messages and not four.  The history found
    under any other identifier is the one that identifier had before. *)
Theorem two_turns_stored_twice t1 t2 t3 t4 t5 t6 t7 t8 user1 user2 assistant1 assistant2
    session_id format_as_sse w :
  World_wf w →
  Dict.get session_id (store w) = None →
  let D := expiry_hours (session_manager w) * 3600 in
  t3 - t2 ≤ D → t5 - t4 ≤ D → t7 - t6 ≤ D →
  agent_executor [Human user1] user1 = inr assistant1 →
  agent_executor
    [Human user1; Human user1; AI assistant1; AI assistant1; Human user2] user2
  = inr assistant2 →
  let out1 := turn t1 t2 t3 t4 user1 session_id format_as_sse w in
  let out2 := turn t5 t6 t7 t8 user2 session_id format_as_sse out1.2 in
  out1.1 = yield format_as_sse <$> split_sentences assistant1
  ∧ out2.1 = yield format_as_sse <$> split_sentences assistant2
  ∧ messages_of session_id out2.2
    = Some [Human user1; Human user1; AI assistant1; AI assistant1;
            Human user2; Human user2; AI assistant2; AI assistant2]
  ∧ messages_of session_id out2.2
    ≠ Some [Human user1; AI assistant1; Human user2; AI assistant2]
  ∧ ∀ other msgs, other ≠ session_id →
      messages_of other out2.2 = Some msgs → messages_of other w = Some msgs.
Proof.
  intros Hw Hnew D H32 H54 H76 Hagent1 Hagent2 out1 out2.
  destruct (get_history_fresh t1 t2 session_id w Hnew) as (Hloc & _ & Hempty).
  destruct (turn_completed t1 t2 t3 t4 user1 session_id format_as_sse w [] assistant1
              Hw Hempty H32 Hagent1)
    as (Hout1 & Hw1 & Hexp1 & Hget1 & Hheap1 & Hframe1 & Hother1).
  fold out1 in Hout1, Hw1, Hexp1, Hget1, Hheap1, Hframe1, Hother1.
  rewrite Hloc in Hget1, Hheap1, Hframe1. cbn [app] in Hheap1.
  set (h := length (heap w)) in *.
  (* the second turn finds the record of the first *)
  destruct (get_history_existing t5 t6 session_id out1.2 _ (proj1 Hw1) Hget1)
    as (Hh & Hheap & _).
  { unfold expired. cbn [last_access]. rewrite Hexp1. fold D. lia. }
  cbn [history] in Hh.
  assert (heap (get_history t5 t6 session_id out1.2).2
            !! (get_history t5 t6 session_id out1.2).1
          = Some [Human user1; Human user1; AI assistant1; AI assistant1]) as Hbefore.
  { by rewrite Hh, Hheap. }
  destruct (turn_completed t5 t6 t7 t8 user2 session_id format_as_sse out1.2 _ assistant2
              Hw1 Hbefore)
    as (Hout2 & Hw2 & Hexp2 & Hget2 & Hheap2 & Hframe2 & Hother2);
    [rewrite Hexp1; by fold D|done|].
  fold out2 in Hout2, Hw2, Hexp2, Hget2, Hheap2, Hframe2, Hother2.
  rewrite Hh in Hget2, Hheap2, Hframe2.
  assert (messages_of session_id out2.2
          = Some [Human user1; Human user1; AI assistant1; AI assistant1;
                  Human user2; Human user2; AI assistant2; AI assistant2]) as Hstored.
  { unfold messages_of. rewrite Hget2. cbn. by rewrite Hheap2. }
  split_and!; [done..| |].
  - rewrite Hstored. discriminate.
  - intros other msgs Hne. unfold messages_of.
    destruct (Dict.get other (store out2.2)) as [d|] eqn:Hd; [|done]. cbn.
    apply Hother2 in Hd as Hd1; [|done]. apply Hother1 in Hd1 as Hd0; [|done].
    rewrite Hd0. cbn.
    destruct Hw as (_ & _ & Halloc). destruct Hw1 as (_ & _ & Halloc1).
    pose proof (Halloc _ _ (Dict_get_elem _ _ _ Hd0)) as Hlt.
    pose proof (Halloc1 _ _ (Dict_get_elem _ _ _ Hd1)) as Hlt1.
    rewrite Hframe2, Hframe1; [done|unfold h; lia|done|unfold h; lia|done].
Qed.

End TurnClaims.

Lemma failed_turn_witness :
  let agent := (λ (_ : list Message) (_ : string), inl "TransportError"%string) in
  let out := generate_openai_stream agent (λ s, s) 0 0 0 0 "Book a meeting" "s1" false
               (new_world 24 1000) in
  out.1 = ["Error processing request: TransportError"%string]
  ∧ messages_of "s1" out.2 = Some [Human "Book a meeting"].
Proof.
  intros agent out.
  destruct (failed_turn agent (λ s, s) 0 0 0 0 "Book a meeting"%string "s1"%string false
              (new_world 24 1000) "TransportError"%string) as (H1 & _ & _ & H2).
  - apply new_world_wf.
  - reflexivity.
  - split; [exact H1|]. apply H2; [vm_compute; discriminate|reflexivity].
Defined.

Lemma two_turns_stored_twice_witness :
  let agent := (λ (_ : list Message) (input : string), inr ("Re: " +:+ input)) in
  let out1 := generate_openai_stream agent (λ s, s) 0 0 0 0 "hello" "s2" false
                (new_world 24 1000) in
  let out2 := generate_openai_stream agent (λ s, s) 0 0 0 0 "bye" "s2" false out1.2 in
  messages_of "s2" out2.2
  = Some [Human "hello"; Human "hello"; AI "Re: hello"; AI "Re: hello";
          Human "bye"; Human "bye"; AI "Re: bye"; AI "Re: bye"]
  ∧ messages_of "s2" out2.2
    ≠ Some [Human "hello"; AI "Re: hello"; Human "bye"; AI "Re: bye"].
Proof.
  intros agent out1 out2.
  destruct (two_turns_stored_twice agent (λ s, s) 0 0 0 0 0 0 0 0 "hello"%string
              "bye"%string "Re: hello"%string "Re: bye"%string "s2"%string false
              (new_world 24 1000)) as (_ & _ & Hstored & Hnot & _).
  - apply new_world_wf.
  - reflexivity.
  - vm_compute. discriminate.
  - vm_compute. discriminate.
  - vm_compute. discriminate.
  - reflexivity.
  - reflexivity.
  - split; [exact Hstored|exact Hnot].
Defined.

(** * Further properties *)

(** ** The chunker *)

Section ChunkerFacts.
Implicit Types (s t f text : string) (c char : ascii).

(** the loop over a concatenation is the loop over its parts *)
Lemma sentence_loop_append s t :
  ∀ sentences current_sentence,
    sentence_loop (s +:+ t) sentences current_sentence
    = sentence_loop t (sentence_loop s sentences current_sentence).1
        (sentence_loop s sentences current_sentence).2.
Proof.
  induction s as [|char s IH]; intros sentences cur; [done|].
  rewrite append_cons. simpl. by case_decide.
Qed.

(** the fragments already closed stay in front *)
Lemma sentence_loop_prefix text :
  ∀ sentences current_sentence,
    sentence_loop text sentences current_sentence
    = (sentences ++ (sentence_loop text [] current_sentence).1,
       (sentence_loop text [] current_sentence).2).
Proof.
  induction text as [|char text IH]; intros sentences cur; simpl.
  - by rewrite app_nil_r.
  - case_decide.
    + rewrite IH, (IH [snoc cur char]). cbn [fst snd]. by rewrite app_assoc.
    + apply IH.
Qed.

(** a text that ends a sentence leaves nothing open *)
Lemma sentence_loop_closed s char :
  char ∈ sentence_ends →
  ∀ sentences current_sentence,
    (sentence_loop (snoc s char) sentences current_sentence).2 = EmptyString.
Proof.
  intros Hend. induction s as [|c s IH]; intros sentences cur.
  - unfold snoc. rewrite append_nil_l. simpl. by rewrite decide_True by by left.
  - rewrite snoc_cons. simpl. by case_decide.
Qed.

Lemma add_remaining_prefix (sentences fragments : list string) current_sentence :
  add_remaining (sentences ++ fragments, current_sentence)
  = sentences ++ add_remaining (fragments, current_sentence).
Proof. unfold add_remaining; simpl. case_decide; [done|]. by rewrite app_assoc. Qed.

(** the fragments of a greedy splitting *)
Lemma Greedy_fragments text fragments :
  Greedy text fragments →
  Forall (λ f, f ≠ EmptyString ∧ open_before f) fragments.
Proof.
  induction 1 as [|f rest fragments Hf Hopen Hclose Hrest IH|f Hf [Hopen _]].
  - constructor.
  - by constructor.
  - by apply Forall_singleton.
Qed.

Lemma Greedy_all_but_last text fragments front f :
  Greedy text fragments → fragments = front ++ [f] → Forall closes front.
Proof.
  intros H. revert front. induction H as [|f0 rest fragments Hf Hopen Hclose Hrest IH|f0 Hf Hnever];
    intros front Heq.
  - by destruct front.
  - destruct front as [|f1 front]; [constructor|].
    simplify_eq/=. constructor; [done|]. by apply IH.
  - destruct front as [|f1 front]; [constructor|]. simplify_eq/=. by destruct front.
Qed.

Lemma Greedy_single text fragments f :
  Greedy text fragments → f ∈ fragments → Greedy f [f].
Proof.
  induction 1 as [|f0 rest fragments Hf Hopen Hclose Hrest IH|f0 Hf Hnever].
  - by intros ?%elem_of_nil.
  - intros [->|Hin]%elem_of_cons; [|by apply IH].
    rewrite <- (append_nil_r f0) at 1. constructor; [done..|constructor].
  - intros ->%list_elem_of_singleton. by constructor.
Qed.

Lemma split_sentences_Greedy text : Greedy text (split_sentences text).
Proof.
  destruct (sentence_loop_greedy text [] EmptyString never_closed_nil)
    as (fragments & Heq & H).
  unfold split_sentences. by rewrite Heq.
Qed.

(** a text too short to fill a fragment stays open *)
Lemma sentence_loop_short text :
  ∀ sentences current_sentence,
    Forall (λ char, char ∉ sentence_ends) (chars text) →
    (String.length current_sentence + String.length text < 80)%nat →
    sentence_loop text sentences current_sentence
    = (sentences, current_sentence +:+ text).
Proof.
  induction text as [|char text IH]; intros sentences cur Hno Hlen; simpl.
  - by rewrite append_nil_r.
  - apply Forall_cons in Hno as [Hchar Hno]. pose proof (length_snoc cur char) as Hsnoc.
    simpl in Hlen. rewrite decide_False by (intros [?|?]; [done|lia]).
    rewrite IH; [by rewrite snoc_append|done|lia].
Qed.

Lemma split_sentences_count_aux (n : nat) :
  ∀ text sentences,
    Forall (λ char, char ∉ sentence_ends) (chars text) →
    (String.length text ≤ n)%nat →
    length (add_remaining (sentence_loop text sentences EmptyString))
    = (length sentences + (String.length text + 79) / 80)%nat.
Proof.
  induction n as [n IH] using lt_wf_ind. intros text sentences Hno Hn.
  destruct (decide (String.length text < 80)%nat) as [Hshort|Hlong].
  - rewrite sentence_loop_short by done. rewrite append_nil_l.
    unfold add_remaining; cbn [fst snd]. case_decide as Hnil.
    + subst text. simpl. lia.
    + rewrite length_app. cbn [length].
      assert (String.length text ≠ 0)%nat by (by intros ?%length_zero).
      replace ((String.length text + 79) / 80)%nat with 1%nat; [lia|].
      apply Nat.div_unique with (r := (String.length text - 1)%nat); lia.
  - destruct (split_at 80 text) as (a & b & -> & Ha); [lia|].
    rewrite length_append in *. rewrite chars_append in Hno.
    apply Forall_app in Hno as [Hnoa Hnob].
    rewrite sentence_loop_fill; [|done|by intros ->|simpl; lia].
    rewrite (IH (n - 80)%nat) by (done || lia).
    rewrite length_app, append_nil_l, Ha. cbn [length].
    replace (80 + String.length b + 79)%nat with ((String.length b + 79) + 1 * 80)%nat by lia.
    rewrite Nat.div_add by lia. lia.
Qed.

(** X1: inside a fragment a sentence end occurs only as its last character,
    and every fragment before the last one ends a sentence or has exactly 80
    characters. *)
Theorem fragment_shape text :
  Forall (λ f, ∀ p char q, f = p +:+ String char q → q ≠ EmptyString →
                 char ∉ sentence_ends)
    (split_sentences text)
  ∧ ∀ front f, split_sentences text = front ++ [f] →
      Forall (λ f, ends_sentence f ∨ String.length f = 80%nat) front.
Proof.
  pose proof (split_sentences_Greedy text) as Hgreedy. split.
  - eapply Forall_impl; [exact (Greedy_fragments _ _ Hgreedy)|].
    intros f [_ Hopen] p char q -> Hq Hend.
    apply (Hopen (snoc p char) q); [by rewrite snoc_append|apply snoc_not_nil|done|].
    left. by exists p, char.
  - intros front f Heq.
    pose proof (Greedy_all_but_last _ _ _ _ Hgreedy Heq) as Hclosed.
    pose proof (sentence_loop_ok text [] EmptyString) as Hok.
    fold (split_sentences text) in Hok. rewrite Heq in Hok.
    apply Forall_app in Hok as [Hok _]; [|constructor|simpl; lia].
    apply Forall_forall. intros f0 Hin.
    destruct (proj1 (Forall_forall _ _) Hclosed f0 Hin) as [?|?]; [by left|right].
    destruct (proj1 (Forall_forall _ _) Hok f0 Hin) as [_ ?]. lia.
Qed.

(** X2: a text of [n] characters without sentence ends has [⌈n/80⌉]
    fragments. *)
Theorem split_sentences_count text :
  Forall (λ char, char ∉ sentence_ends) (chars text) →
  length (split_sentences text) = ((String.length text + 79) / 80)%nat.
Proof.
  intros Hno. unfold split_sentences.
  by rewrite (split_sentences_count_aux (String.length text)).
Qed.

Lemma split_sentences_count_witness :
  length (split_sentences (string_of_list_ascii (replicate 200 "a"%char))) = 3%nat.
Proof.
  apply (split_sentences_count (string_of_list_ascii (replicate 200 "a"%char))).
  apply (bool_decide_unpack _). vm_compute. exact I.
Defined.

(** X3: splitting distributes over a concatenation whose left part ends a
    sentence. *)
Theorem split_sentences_after_end a char b :
  char ∈ sentence_ends →
  split_sentences (snoc a char +:+ b)
  = split_sentences (snoc a char) ++ split_sentences b.
Proof.
  intros Hend. unfold split_sentences.
  rewrite sentence_loop_append, (sentence_loop_prefix b).
  pose proof (sentence_loop_closed a char Hend [] EmptyString) as Hclosed.
  destruct (sentence_loop (snoc a char) [] EmptyString) as [sentences cur].
  cbn [fst snd] in *. subst cur. rewrite add_remaining_prefix.
  destruct (sentence_loop b [] EmptyString) as [sentences' cur']. cbn [fst snd].
  by f_equal.
Qed.

Lemma split_sentences_after_end_witness :
  split_sentences "Hi. Bye" = split_sentences "Hi." ++ split_sentences " Bye".
Proof.
  apply (split_sentences_after_end "Hi" "."%char " Bye").
  apply (bool_decide_unpack _). vm_compute. exact I.
Defined.

(** X4: a fragment is not split further: splitting it again gives the
    fragment alone. *)
Theorem split_sentences_stable text f :
  f ∈ split_sentences text → split_sentences f = [f].
Proof.
  intros Hin.
  pose proof (Greedy_single _ _ _ (split_sentences_Greedy text) Hin) as Hf.
  symmetry. by apply (Greedy_unique _ _ Hf _ _ (split_sentences_Greedy f)).
Qed.

Lemma split_sentences_stable_witness : split_sentences " How are you?" = [" How are you?"%string].
Proof.
  apply (split_sentences_stable "Hi. How are you? ok").
  apply (bool_decide_unpack _). vm_compute. exact I.
Defined.

End ChunkerFacts.

(** ** The session store *)

Section StoreFacts.
Implicit Types (self : SessionManager) (w : World) (data : SessionData).

Lemma run_heap_lookup ops w (l : loc) msgs :
  heap w !! l = Some msgs → heap (run ops w) !! l = Some msgs.
Proof.
  revert w. induction ops as [|a ops IH]; intros w Hl; [done|].
  apply IH. unfold step. rewrite get_history_heap_lookup; [done|].
  by eapply lookup_lt_Some.
Qed.

(** X5: no sequence of [get_history] calls changes the messages of a history
    object that exists: sweeps and evictions drop records from the store,
    they do not touch histories. *)
Theorem histories_untouched ops w (l : loc) msgs :
  heap w !! l = Some msgs → heap (run ops w) !! l = Some msgs.
Proof. apply run_heap_lookup. Qed.

Lemma histories_untouched_witness :
  let w := add_message 0%nat (Human "hello") (run [access 0 "a"] (new_world 24 1)) in
  heap (run [access 1 "b"; access 2 "c"] w) !! 0%nat = Some [Human "hello"].
Proof.
  intros w. apply (histories_untouched [access 1 "b"; access 2 "c"] w 0%nat).
  reflexivity.
Defined.

(** X6: on a store reached from a new manager by [get_history] calls, two
    different identifiers never share a history object, and every stored
    history exists. *)
Theorem sessions_own_their_history D N ops k1 data1 k2 data2 :
  let w := run ops (new_world D N) in
  Dict.get k1 (store w) = Some data1 →
  Dict.get k2 (store w) = Some data2 →
  k1 ≠ k2 →
  history data1 ≠ history data2 ∧ is_Some (heap w !! history data1).
Proof.
  intros w H1%Dict_get_elem H2%Dict_get_elem Hne.
  destruct (run_World_wf ops _ (new_world_wf D N)) as (_ & Hown & Halloc).
  fold w in Hown, Halloc. split.
  - intros Heq. by apply Hne, (Hown _ _ _ _ H1 H2).
  - apply lookup_lt_is_Some_2. by apply (Halloc k1).
Qed.

Lemma sessions_own_their_history_witness :
  let w := run [access 0 "a"; access 0 "b"] (new_world 24 2) in
  (0 ≠ 1)%nat ∧ is_Some (heap w !! 0%nat).
Proof.
  intros w.
  apply (sessions_own_their_history 24 2 [access 0 "a"; access 0 "b"]
           "a"%string {| history := 0%nat; last_access := 0 |}
           "b"%string {| history := 1%nat; last_access := 0 |}).
  - reflexivity.
  - reflexivity.
  - discriminate.
Defined.

(** X7: whatever the capacity and the clock, after [get_history] the
    identifier is stored with the returned history and the time of this
    call, and the returned history exists. *)
Theorem get_history_stores_result t1 t2 session_id w :
  World_wf w →
  let r := get_history t1 t2 session_id w in
  Dict.get session_id (store r.2) = Some {| history := r.1; last_access := t2 |}
  ∧ ∃ msgs, heap r.2 !! r.1 = Some msgs ∧ messages_of session_id r.2 = Some msgs.
Proof.
  intros Hw r. pose proof (get_history_self t1 t2 session_id w) as Hself. fold r in Hself.
  split; [done|].
  destruct (get_history_World_wf t1 t2 session_id w Hw) as (_ & _ & Halloc). fold r in Halloc.
  destruct (lookup_lt_is_Some_2 (heap r.2) r.1) as [msgs Hmsgs].
  { apply (Halloc session_id {| history := r.1; last_access := t2 |}).
    by apply Dict_get_elem. }
  exists msgs. split; [done|]. unfold messages_of. by rewrite Hself.
Qed.

Lemma get_history_stores_result_witness :
  let r := get_history 5 6 "a" (new_world 24 0) in
  Dict.get "a" (store r.2) = Some {| history := r.1; last_access := 6 |}.
Proof.
  intros r. apply (get_history_stores_result 5 6 "a"%string (new_world 24 0)).
  apply new_world_wf.
Defined.

(** X8: a second call for the same identifier, made before the record of
    the first expires, returns the same history and allocates nothing. *)
Theorem get_history_again t1 t2 t3 t4 session_id w :
  Dict.wf (store w) →
  t3 - t2 ≤ expiry_hours (session_manager w) * 3600 →
  let r := get_history t1 t2 session_id w in
  let r' := get_history t3 t4 session_id r.2 in
  r'.1 = r.1 ∧ heap r'.2 = heap r.2.
Proof.
  intros Hwf Hfresh r r'.
  destruct (get_history_existing t3 t4 session_id r.2 {| history := r.1; last_access := t2 |})
    as (Hloc & Hheap & _).
  - by apply get_history_wf.
  - apply get_history_self.
  - unfold expired. cbn [last_access].
    destruct (get_history_config t1 t2 session_id w) as [_ Hexp]. fold r in Hexp.
    rewrite Hexp. lia.
  - done.
Qed.

Lemma get_history_again_witness :
  let r := get_history 0 0 "a" (new_world 24 2) in
  let r' := get_history 3600 3600 "a" r.2 in
  r'.1 = r.1 ∧ heap r'.2 = heap r.2.
Proof.
  intros r r'. apply (get_history_again 0 0 3600 3600 "a"%string (new_world 24 2)).
  - apply NoDup_nil_2.
  - vm_compute. discriminate.
Defined.

(** X9: a sweep after a sweep is the later sweep alone, when the clock has
    not gone back in between; in particular sweeping twice at one time is
    sweeping once. *)
Theorem clean_expired_sessions_twice t t' self :
  Dict.wf (sessions self) →
  t ≤ t' →
  _clean_expired_sessions t' (_clean_expired_sessions t self)
  = _clean_expired_sessions t' self.
Proof.
  intros Hwf Ht.
  assert (sessions (_clean_expired_sessions t' (_clean_expired_sessions t self))
          = sessions (_clean_expired_sessions t' self)) as Hs.
  { rewrite !clean_sessions_wf by auto using clean_wf.
    rewrite list_filter_filter. apply list_filter_iff. intros [k data]. unfold expired.
    rewrite clean_expiry_hours. cbn [snd]. split; [by intros [? _]|]. intros H. split; [done|lia]. }
  unfold _clean_expired_sessions in *. unfold with_sessions in *. cbn in *. by rewrite Hs.
Qed.

Lemma clean_expired_sessions_twice_witness :
  let self := session_manager (run [access 0 "a"; access 50000 "b"] (new_world 24 2)) in
  _clean_expired_sessions 100000 (_clean_expired_sessions 90000 self)
  = _clean_expired_sessions 100000 self.
Proof.
  intros self. apply (clean_expired_sessions_twice 90000 100000 self).
  - apply (bool_decide_unpack _). vm_compute. exact I.
  - lia.
Defined.

End StoreFacts.

(** ** Turns *)

Section TurnMore.
Variable agent_executor : list Message → string → string + string.
Variable json_dumps_content : string → string.
Implicit Types (w : World) (content session_id e : string) (format_as_sse : bool).

Local Abbreviation invoke := (ainvoke agent_executor).
Local Abbreviation yield := (emit json_dumps_content).
Local Abbreviation turn := (generate_openai_stream agent_executor json_dumps_content).

(** X10: when the agent call of a turn returns, the generator yields the
    fragments of the reply, one string each and in order, so that without
    SSE framing the yielded strings concatenate to the reply.  Unless the
    record expired between the two calls of [get_history], the history of
    the session has then gained the user message twice and the reply twice:
    the generator appends each once (lines 219 and 233) and the wrapper
    appends both after the agent has returned. *)
Theorem completed_turn t1 t2 t3 t4 content session_id format_as_sse w ai_message :
  World_wf w →
  let r1 := get_history t1 t2 session_id w in
  let w1 := add_message r1.1 (Human content) r1.2 in
  (invoke t3 t4 session_id content w1).1 = inr ai_message →
  let out := turn t1 t2 t3 t4 content session_id format_as_sse w in
  out.1 = yield format_as_sse <$> split_sentences ai_message
  ∧ (format_as_sse = false → join out.1 = ai_message)
  ∧ (t3 - t2 ≤ expiry_hours (session_manager w) * 3600 →
     ∀ before, heap r1.2 !! r1.1 = Some before →
       messages_of session_id out.2
       = Some (before ++ [Human content; Human content; AI ai_message; AI ai_message])).
Proof.
  intros Hw r1 w1 Hok out. subst out.
  rewrite generate_openai_stream_steps. fold r1 w1. rewrite Hok. cbn [fst snd].
  split_and!; [done| |].
  - intros ->. rewrite list_fmap_id. unfold split_sentences.
    by rewrite sentence_loop_join.
  - intros Hfresh before Hbefore.
    destruct (turn_entered t1 t2 content session_id w before Hw Hbefore)
      as (Hw1 & Hexp1 & Hget1 & Hheap1 & _).
    fold r1 in Hw1, Hexp1, Hget1, Hheap1. fold w1 in Hw1, Hexp1, Hget1, Hheap1.
    destruct (ainvoke_same_history agent_executor t3 t4 session_id content w1
                r1.1 t2 (before ++ [Human content]) Hw1 Hget1)
      as (_ & Hheap2 & _ & Hget2); [by rewrite Hexp1|exact Hheap1|].
    rewrite Hok in Hheap2.
    unfold messages_of. rewrite add_message_store, Hget2. cbn [mbind option_bind history].
    rewrite add_message_lookup, Hheap2. cbn [fmap option_fmap option_map].
    by rewrite <- !app_assoc.
Qed.

(** X11: when the record of the session expires between the two calls of
    [get_history] of a turn, the call made by the wrapper replaces it with a
    new history.  The agent runs on an empty history; the history stored for
    the session afterwards holds what the wrapper appended, the user message
    and the reply when the agent returned and nothing when it raised; what
    the generator appended went to the history that is no longer stored. *)
Theorem turn_expired_between t1 t2 t3 t4 content session_id format_as_sse w :
  World_wf w →
  expiry_hours (session_manager w) * 3600 < t3 - t2 →
  let r1 := get_history t1 t2 session_id w in
  let out := turn t1 t2 t3 t4 content session_id format_as_sse w in
  out.1 = match agent_executor [] content with
          | inr ai_message => yield format_as_sse <$> split_sentences ai_message
          | inl e => [yield format_as_sse (error_message e)]
          end
  ∧ messages_of session_id out.2
    = Some match agent_executor [] content with
           | inr ai_message => [Human content; AI ai_message]
           | inl e => []
           end
  ∧ ∀ before, heap r1.2 !! r1.1 = Some before →
      heap out.2 !! r1.1
      = Some (before ++ Human content :: match agent_executor [] content with
                                         | inr ai_message => [AI ai_message]
                                         | inl e => []
                                         end).
Proof.
  intros Hw Hexp r1 out.
  destruct (get_history_allocated t1 t2 session_id w Hw) as [before Hbefore].
  destruct (turn_entered t1 t2 content session_id w before Hw Hbefore)
    as (Hw1 & Hexp1 & Hget1 & Hheap1 & _).
  fold r1 in Hbefore, Hw1, Hexp1, Hget1, Hheap1.
  set (w1 := add_message r1.1 (Human content) r1.2) in *.
  assert (expired (session_manager w1) t3 {| history := r1.1; last_access := t2 |}) as Hold.
  { unfold expired. cbn [last_access]. by rewrite Hexp1. }
  destruct (get_history_expired t3 t4 session_id w1 _ Hget1 Hold) as [Hloc Hget2].
  pose proof (lookup_lt_Some _ _ _ Hheap1) as Hlt.
  assert (heap (get_history t3 t4 session_id w1).2 = heap w1 ++ [[]]) as Hheap2.
  { pose proof (get_history_loc t3 t4 session_id w1) as Hcases. cbn zeta in Hcases.
    destruct Hcases as [(data' & Hin & Hh' & _)|[_ Hh]]; [exfalso|exact Hh].
    destruct Hw1 as (_ & _ & Halloc1). specialize (Halloc1 _ _ Hin). lia. }
  assert (heap (get_history t3 t4 session_id w1).2 !! (get_history t3 t4 session_id w1).1
          = Some []) as Hempty.
  { rewrite Hheap2, Hloc. by apply list_lookup_middle. }
  assert (heap (get_history t3 t4 session_id w1).2 !! r1.1
          = Some (before ++ [Human content])) as Hkept.
  { by rewrite Hheap2, lookup_app_l. }
  assert ((get_history t3 t4 session_id w1).1 ≠ r1.1) as Hne by (rewrite Hloc; lia).
  subst out. rewrite generate_openai_stream_steps. fold r1 w1.
  rewrite ainvoke_steps. cbn [fst snd]. rewrite Hempty. cbn [default from_option].
  unfold id. destruct (agent_executor [] content) as [e|ai_message]; cbn [fst snd].
  - split_and!; [done| |].
    + unfold messages_of. rewrite Hget2. cbn. exact Hempty.
    + intros before' Hbefore'. rewrite Hbefore in Hbefore'. by simplify_eq.
  - split_and!; [done| |].
    + unfold messages_of. rewrite add_message_store, add_messages_store, Hget2.
      cbn [mbind option_bind history].
      rewrite add_message_lookup_ne by done. rewrite add_messages_lookup, Hempty. done.
    + intros before' Hbefore'. rewrite Hbefore in Hbefore'. simplify_eq.
      rewrite add_message_lookup, add_messages_lookup_ne, Hkept by done.
      cbn [fmap option_fmap option_map]. by rewrite <- app_assoc.
Qed.

End TurnMore.

Lemma completed_turn_witness :
  let agent := (λ (_ : list Message) (input : string), inr ("Ok. " +:+ input)) in
  let out := generate_openai_stream agent (λ s, s) 0 0 0 0 "Book it" "s3" false
               (new_world 24 1000) in
  out.1 = ["Ok."; " Book it"]%string
  ∧ messages_of "s3" out.2
    = Some [Human "Book it"; Human "Book it"; AI "Ok. Book it"; AI "Ok. Book it"].
Proof.
  intros agent out.
  destruct (completed_turn agent (λ s, s) 0 0 0 0 "Book it"%string "s3"%string false
              (new_world 24 1000) "Ok. Book it"%string) as (H & _ & Hstored).
  - apply new_world_wf.
  - reflexivity.
  - split; [exact H|]. apply (Hstored ltac:(vm_compute; discriminate) []). reflexivity.
Defined.

Lemma turn_expired_between_witness :
  let agent := (λ (_ : list Message) (input : string), inr ("Ok. " +:+ input)) in
  let out := generate_openai_stream agent (λ s, s) 0 0 1 1 "Book it" "s3" false
               (new_world 0 1000) in
  messages_of "s3" out.2 = Some [Human "Book it"; AI "Ok. Book it"]
  ∧ heap out.2 !! 0%nat = Some [Human "Book it"; AI "Ok. Book it"].
Proof.
  intros agent out.
  destruct (turn_expired_between agent (λ s, s) 0 0 1 1 "Book it"%string "s3"%string false
              (new_world 0 1000)) as (_ & Hstored & Hturn).
  - apply new_world_wf.
  - reflexivity.
  - split; [exact Hstored|]. apply (Hturn []). reflexivity.
Defined.

(** ** Dates *)

Section StringSlices.
Implicit Types (s p q : string) (c : ascii).

Lemma take_str_append p q : take_str (String.length p) (p +:+ q) = p.
Proof. induction p as [|c p IH]; [by destruct q|]. rewrite append_cons. simpl. by rewrite IH. Qed.

Lemma drop_str_append p q : drop_str (String.length p) (p +:+ q) = q.
Proof. induction p as [|c p IH]; [by destruct q|]. by rewrite append_cons. Qed.

Lemma drop_last_append p q : drop_last (String.length q) (p +:+ q) = p.
Proof.
  unfold drop_last. rewrite length_append.
  replace (String.length p + String.length q - String.length q)%nat
    with (String.length p) by lia.
  apply take_str_append.
Qed.

Lemma take_last_append p q : take_last (String.length q) (p +:+ q) = q.
Proof.
  unfold take_last. rewrite length_append.
  replace (String.length p + String.length q - String.length q)%nat
    with (String.length p) by lia.
  apply drop_str_append.
Qed.

Lemma endswith_snoc s c c' : endswith c (snoc s c') ↔ c' = c.
Proof.
  unfold endswith, snoc.
  change 1%nat with (String.length (String c' EmptyString)).
  rewrite take_last_append. split; [by intros [= ->]|by intros ->].
Qed.

Lemma chars_snoc s c : chars (snoc s c) = chars s ++ [c].
Proof. unfold snoc. by rewrite chars_append. Qed.

End StringSlices.

Section DateFacts.
Context `{DatetimeLib}.
Implicit Types (s datetime_str : string) (timezone_str : option string) (is_end_time : bool).

Lemma insert_offset_colon_not_nil s : DateUtils.insert_offset_colon s ≠ EmptyString.
Proof.
  unfold DateUtils.insert_offset_colon. intros [_ Heq]%append_eq_nil. discriminate.
Qed.

Lemma replace_Z_snoc s : DateUtils.replace_Z (snoc s "Z") = s +:+ "+00:00".
Proof.
  unfold DateUtils.replace_Z. rewrite decide_True by by apply endswith_snoc.
  f_equal. unfold snoc. change 1%nat with (String.length "Z"). apply drop_last_append.
Qed.

Lemma replace_Z_offset s : DateUtils.replace_Z (s +:+ "+00:00") = s +:+ "+00:00".
Proof.
  unfold DateUtils.replace_Z. rewrite decide_False; [done|].
  change (s +:+ "+00:00") with (s +:+ ("+00:0" +:+ "0")).
  rewrite <- append_assoc. fold (snoc (s +:+ "+00:0") "0").
  rewrite endswith_snoc. discriminate.
Qed.

Lemma replace_Z_plus s : "+"%char ∈ chars s → "+"%char ∈ chars (DateUtils.replace_Z s).
Proof.
  intros Hin. unfold DateUtils.replace_Z. case_decide; [|done].
  rewrite chars_append. apply elem_of_app. right. by left.
Qed.

(** X12: the function answers with a formatted string and no error, or
    with no string and an error message, and neither text is ever empty: the
    callers' tests [if start_error:] see every failure. *)
Theorem validate_and_format_datetime_result datetime_str timezone_str is_end_time :
  let r := DateUtils.validate_and_format_datetime datetime_str timezone_str is_end_time in
  (∃ formatted, r = (Some formatted, None) ∧ formatted ≠ EmptyString)
  ∨ (∃ error_msg, r = (None, Some error_msg) ∧ error_msg ≠ EmptyString).
Proof.
  assert (∀ dt, ∃ formatted,
            DateUtils.format_datetime dt = (Some formatted, None) ∧ formatted ≠ EmptyString)
    as Hok by (intros dt; eexists; split; [done|apply insert_offset_colon_not_nil]).
  assert (∀ e, ∃ error_msg,
            DateUtils.invalid_format e = (None, Some error_msg) ∧ error_msg ≠ EmptyString)
    as Hbad by (intros e; eexists; split; [done|discriminate]).
  assert (∃ error_msg,
            DateUtils.unknown_timezone timezone_str = (None, Some error_msg)
            ∧ error_msg ≠ EmptyString)
    as Htz by (eexists; split; [done|discriminate]).
  intros r. subst r. unfold DateUtils.validate_and_format_datetime.
  repeat first [case_decide | case_match]; auto.
Qed.

(** X13: a datetime that carries its offset is handled without the timezone
    argument: a trailing ['Z'] is read as [+00:00], and for a string with a
    ['+'] the result is the same for every timezone name, known or not. *)
Theorem explicit_offset_ignores_timezone s timezone_str timezone_str' is_end_time :
  DateUtils.validate_and_format_datetime (snoc s "Z") timezone_str is_end_time
  = DateUtils.validate_and_format_datetime (s +:+ "+00:00") timezone_str' is_end_time
  ∧ ("+"%char ∈ chars s →
     DateUtils.validate_and_format_datetime s timezone_str is_end_time
     = DateUtils.validate_and_format_datetime s timezone_str' is_end_time).
Proof.
  assert (∀ s', s' ≠ EmptyString → "+"%char ∈ chars (DateUtils.replace_Z s') → ∀ tz,
            DateUtils.validate_and_format_datetime s' tz is_end_time
            = match fromisoformat (DateUtils.replace_Z s') with
              | inl e => DateUtils.invalid_format e
              | inr dt => DateUtils.format_datetime dt
              end) as Hplus.
  { intros s' Hne Hin tz. unfold DateUtils.validate_and_format_datetime.
    rewrite decide_False by done. rewrite decide_True; [done|]. by left. }
  assert ("+"%char ∈ chars (s +:+ "+00:00")) as Hin.
  { rewrite chars_append. apply elem_of_app. right. by left. }
  split.
  - rewrite (Hplus (snoc s "Z")); [|apply snoc_not_nil|by rewrite replace_Z_snoc].
    rewrite (Hplus (s +:+ "+00:00")); [|(intros [_ ?]%append_eq_nil; discriminate)
                                       |by rewrite replace_Z_offset].
    by rewrite replace_Z_snoc, replace_Z_offset.
  - intros Hs.
    assert (s ≠ EmptyString) as Hne by (intros ->; by apply elem_of_nil in Hs).
    by rewrite !(Hplus s) by (done || by apply replace_Z_plus).
Qed.

(** X14: the colon goes before the last two characters of what [strftime]
    gave, so that an offset [-0700] becomes [-07:00]. *)
Theorem insert_offset_colon_last_two s a b :
  DateUtils.insert_offset_colon (s +:+ String a (String b EmptyString))
  = s +:+ ":" +:+ String a (String b EmptyString).
Proof.
  unfold DateUtils.insert_offset_colon.
  change 2%nat with (String.length (String a (String b EmptyString))).
  by rewrite drop_last_append, take_last_append.
Qed.

End DateFacts.

(** ** The Cal.com service and the tools *)


Section CalFacts.
Context `{DatetimeLib}.
Context (str_exn : PyExn → string).
Implicit Types (self : CalApiService) (reply : Reply) (returned : Returned).

Lemma check_api_key_missing self :
  ¬ truthy_str (api_key self) →
  Cal._check_api_key self
  = Some (error_dict "CAL_DOT_COM_API_KEY not found in environment variables").
Proof. intros Hkey. unfold Cal._check_api_key. by rewrite decide_False. Qed.

Lemma check_api_key_present self :
  truthy_str (api_key self) → Cal._check_api_key self = None.
Proof. intros Hkey. unfold Cal._check_api_key. by rewrite decide_True. Qed.

Lemma checked_cases (validated : option string * option string) k :
  (∃ error, error ≠ EmptyString ∧ validated.2 = Some error
            ∧ Tools.checked validated k = Ret (error_dict error))
  ∨ Tools.checked validated k = k validated.1.
Proof.
  unfold Tools.checked. destruct validated.2 as [error|]; [|by right].
  case_decide; [by right|left]. by exists error.
Qed.

(** X15: without an API key (unset, or set to the empty string) no tool
    makes a request: each returns an error dictionary at once. *)
Theorem no_api_key_no_request self :
  ¬ truthy_str (api_key self) →
  (∀ start end_ slug tz, ∃ msg, Tools.get_available_slots self start end_ slug tz
                                = Ret (error_dict msg))
  ∧ (∀ id start name email tz title description location,
       ∃ msg, Tools.book_new_appointment self id start name email tz title description location
              = Ret (error_dict msg))
  ∧ (∀ email name take, ∃ msg, Tools.get_user_bookings self email name take
                               = Ret (error_dict msg))
  ∧ (∀ uid, ∃ msg, Tools.get_booking_by_uid self uid = Ret (error_dict msg))
  ∧ (∀ uid start tz by_email reason,
       ∃ msg, Tools.reschedule_appointment self uid start tz by_email reason
              = Ret (error_dict msg))
  ∧ (∀ uid reason subsequent,
       ∃ msg, Tools.cancel_appointment self uid reason subsequent
              = Ret (error_dict msg)).
Proof.
  intros Hkey. pose proof (check_api_key_missing self Hkey) as Hcheck.
  split_and!.
  - intros start end_ slug tz. unfold Tools.get_available_slots.
    destruct (checked_cases (DateUtils.validate_and_format_datetime start tz false)
                (λ start_formatted,
                   Tools.checked (DateUtils.validate_and_format_datetime end_ tz true)
                     (λ end_formatted,
                        Cal.get_bookable_slots self start_formatted end_formatted slug tz)))
      as [(e & _ & _ & ->)| ->]; [by eexists|].
    destruct (checked_cases (DateUtils.validate_and_format_datetime end_ tz true)
                (λ end_formatted,
                   Cal.get_bookable_slots self
                     (DateUtils.validate_and_format_datetime start tz false).1
                     end_formatted slug tz))
      as [(e & _ & _ & ->)| ->]; [by eexists|].
    unfold Cal.get_bookable_slots. rewrite Hcheck. by eexists.
  - intros id start name email tz title description location.
    unfold Tools.book_new_appointment. case_decide; [by eexists|].
    match goal with |- context [Tools.checked ?v ?k] =>
      destruct (checked_cases v k) as [(e & _ & _ & ->)| ->] end; [by eexists|].
    unfold Cal.create_new_booking. rewrite Hcheck. by eexists.
  - intros email name take. unfold Tools.get_user_bookings. case_decide; [|by eexists].
    unfold Cal.get_all_bookings. rewrite Hcheck. by eexists.
  - intros uid. unfold Tools.get_booking_by_uid. case_decide; [by eexists|].
    unfold Cal.get_booking. rewrite Hcheck. by eexists.
  - intros uid start tz by_email reason. unfold Tools.reschedule_appointment.
    case_decide; [by eexists|].
    match goal with |- context [Tools.checked ?v ?k] =>
      destruct (checked_cases v k) as [(e & _ & _ & ->)| ->] end; [by eexists|].
    unfold Cal.reschedule_booking. rewrite Hcheck. by eexists.
  - intros uid reason subsequent. unfold Tools.cancel_appointment.
    case_decide; [by eexists|].
    unfold Cal.get_booking. rewrite Hcheck. by eexists.
Qed.

Lemma sent_with_key_versioned self key url api_version path :
  api_key self = Some key → key ≠ EmptyString →
  url = Cal.API_BASE_URL +:+ "/" +:+ path →
  ∀ method params json_data action_description,
    sent_with_key self
      {| method := method; url := url;
         headers := Cal._get_headers_with_api_version self api_version;
         params := params; json_data := json_data;
         action_description := action_description |}.
Proof.
  intros Hkey Hne -> method params json_data action. exists key, path.
  unfold Cal._get_headers_with_api_version. rewrite Hkey. by split_and!.
Qed.

Lemma truthy_str_Some (s : option string) :
  truthy_str s → ∃ key, s = Some key ∧ key ≠ EmptyString.
Proof. destruct s as [key|]; [|done]. intros Hne. by exists key. Qed.

Ltac local_error := left; eexists; split; [|reflexivity]; try discriminate; try done.

Lemma passes_on_data :
  passes_on (on_return (λ returned, Ret (Cal.data_or_error returned))).
Proof. by split. Qed.

Ltac one_request_made Hkey :=
  right; eexists _, _; split; [reflexivity|]; split; [|apply passes_on_data];
  destruct (truthy_str_Some _ Hkey) as (key & Hsome & Hne);
  eapply (sent_with_key_versioned _ key); [exact Hsome|exact Hne|reflexivity].

Lemma validate_cases datetime_str timezone_str is_end_time :
  (∃ formatted,
     formatted ≠ EmptyString
     ∧ DateUtils.validate_and_format_datetime datetime_str timezone_str is_end_time
       = (Some formatted, None))
  ∨ (∃ error,
       error ≠ EmptyString
       ∧ DateUtils.validate_and_format_datetime datetime_str timezone_str is_end_time
         = (None, Some error)).
Proof.
  assert (∀ dt, ∃ formatted,
            formatted ≠ EmptyString ∧ DateUtils.format_datetime dt = (Some formatted, None))
    as Hok by (intros dt; eexists; split; [|done]; apply insert_offset_colon_not_nil).
  assert (∀ e, ∃ error,
            error ≠ EmptyString ∧ DateUtils.invalid_format e = (None, Some error))
    as Hbad by (intros e; eexists; split; [|done]; discriminate).
  assert (∃ error,
            error ≠ EmptyString ∧ DateUtils.unknown_timezone timezone_str = (None, Some error))
    as Htz by (eexists; split; [|done]; discriminate).
  unfold DateUtils.validate_and_format_datetime.
  repeat first [case_decide | case_match]; auto.
Qed.

Lemma checked_error error k :
  error ≠ EmptyString → Tools.checked (None, Some error) k = Ret (error_dict error).
Proof. intros Hne. unfold Tools.checked. cbn [snd]. by rewrite decide_False. Qed.

Ltac no_request :=
  split;
    [local_error
    |split;
       [by intros (? & ? & ?)
       |intros Hwhen; cbn [snd] in Hwhen; exfalso; intuition congruence]].

Ltac request_made Hkey :=
  split;
    [one_request_made Hkey
    |split;
       [intros _; split_and!; first [assumption|reflexivity]
       |intros _; by eexists _, _]].

(** X16: each of the five tools that read or change one thing fails at
    once with an error dictionary, or makes exactly one request, to the
    Cal.com API and with the key of the service.  When [make_api_request]
    returns, the tool returns the data, or the error message as an error
    dictionary; when an exception leaves [make_api_request], it leaves the
    tool.  The request is made exactly when the service has a key and the
    arguments pass the tool's checks: the datetimes validate, the event type
    id is not 0, one of the two filters is given, the booking uid is not
    empty. *)
Theorem tools_make_one_request self :
  (∀ start end_ slug tz,
     let c := Tools.get_available_slots self start end_ slug tz in
     one_request self c
     ∧ (makes_request c
        ↔ truthy_str (api_key self)
          ∧ (DateUtils.validate_and_format_datetime start tz false).2 = None
          ∧ (DateUtils.validate_and_format_datetime end_ tz true).2 = None))
  ∧ (∀ id start name email tz title description location,
       let c := Tools.book_new_appointment self id start name email tz title description
                  location in
       one_request self c
       ∧ (makes_request c
          ↔ truthy_str (api_key self) ∧ id ≠ 0
            ∧ (DateUtils.validate_and_format_datetime start (Some tz) false).2 = None))
  ∧ (∀ email name take,
       let c := Tools.get_user_bookings self email name take in
       one_request self c
       ∧ (makes_request c
          ↔ truthy_str (api_key self) ∧ (truthy_str email ∨ truthy_str name)))
  ∧ (∀ uid,
       let c := Tools.get_booking_by_uid self uid in
       one_request self c
       ∧ (makes_request c ↔ truthy_str (api_key self) ∧ uid ≠ EmptyString))
  ∧ (∀ uid start tz by_email reason,
       let c := Tools.reschedule_appointment self uid start tz by_email reason in
       one_request self c
       ∧ (makes_request c
          ↔ truthy_str (api_key self) ∧ uid ≠ EmptyString
            ∧ (DateUtils.validate_and_format_datetime start (Some tz) false).2 = None)).
Proof.
  split_and!.
  - intros start end_ slug tz. cbn zeta. unfold Tools.get_available_slots.
    destruct (validate_cases start tz false) as [(f1 & Hf1 & Hv1)|(e1 & He1 & Hv1)];
      rewrite Hv1; [|rewrite checked_error by done; no_request].
    destruct (validate_cases end_ tz true) as [(f2 & Hf2 & Hv2)|(e2 & He2 & Hv2)];
      rewrite Hv2; [|cbn [Tools.checked fst snd]; rewrite decide_False by done; no_request].
    cbn [Tools.checked fst snd]. unfold Cal.get_bookable_slots.
    destruct (decide (truthy_str (api_key self))) as [Hkey|Hkey].
    + rewrite (check_api_key_present _ Hkey).
      rewrite decide_False by (intros [Hs|Hs]; by apply Hs). request_made Hkey.
    + rewrite (check_api_key_missing _ Hkey). no_request.
  - intros id start name email tz title description location. cbn zeta.
    unfold Tools.book_new_appointment. case_decide; [no_request|].
    destruct (validate_cases start (Some tz) false) as [(f1 & Hf1 & Hv1)|(e1 & He1 & Hv1)];
      rewrite Hv1; [|rewrite checked_error by done; no_request].
    cbn [Tools.checked fst snd]. unfold Cal.create_new_booking.
    destruct (decide (truthy_str (api_key self))) as [Hkey|Hkey].
    + rewrite (check_api_key_present _ Hkey).
      rewrite decide_False by (intros [?|[Hs|?]]; [done|by apply Hs|done]).
      rewrite decide_False by (intros Hmissing; by apply Hmissing).
      request_made Hkey.
    + rewrite (check_api_key_missing _ Hkey). no_request.
  - intros email name take. cbn zeta. unfold Tools.get_user_bookings.
    case_decide; [|no_request].
    unfold Cal.get_all_bookings.
    destruct (decide (truthy_str (api_key self))) as [Hkey|Hkey].
    + rewrite (check_api_key_present _ Hkey). request_made Hkey.
    + rewrite (check_api_key_missing _ Hkey). no_request.
  - intros uid. cbn zeta. unfold Tools.get_booking_by_uid. case_decide; [no_request|].
    unfold Cal.get_booking.
    destruct (decide (truthy_str (api_key self))) as [Hkey|Hkey].
    + rewrite (check_api_key_present _ Hkey). rewrite decide_False by done.
      request_made Hkey.
    + rewrite (check_api_key_missing _ Hkey). no_request.
  - intros uid start tz by_email reason. cbn zeta. unfold Tools.reschedule_appointment.
    case_decide; [no_request|].
    destruct (validate_cases start (Some tz) false) as [(f1 & Hf1 & Hv1)|(e1 & He1 & Hv1)];
      rewrite Hv1; [|rewrite checked_error by done; no_request].
    cbn [Tools.checked fst snd]. unfold Cal.reschedule_booking.
    destruct (decide (truthy_str (api_key self))) as [Hkey|Hkey].
    + rewrite (check_api_key_present _ Hkey). rewrite decide_False by done.
      rewrite decide_True by done. request_made Hkey.
    + rewrite (check_api_key_missing _ Hkey). no_request.
Qed.

(** the lookup that [cancel_appointment] starts with *)
Lemma cancel_appointment_lookup self uid reason subsequent :
  truthy_str (api_key self) → uid ≠ EmptyString →
  ∃ k,
    Tools.cancel_appointment self uid reason subsequent
    = Req (Cal.get_request self (Cal.API_BASE_URL +:+ "/bookings/" +:+ uid) "2024-08-13" None
             ("Fetching booking with UID: " +:+ uid)) k
    ∧ (∀ e, k (inl e) = Raise e)
    ∧ ∀ returned,
        k (inr returned)
        = match py_contains "error" (Cal.data_or_error returned) with
          | inl e => Raise e
          | inr true => Ret (Cal.data_or_error returned)
          | inr false =>
              match py_get (Cal.data_or_error returned) "data" (PyDict []) with
              | inl e => Raise e
              | inr booking_data =>
                  match py_get booking_data "recurringEventId" PyNone with
                  | inl e => Raise e
                  | inr recurring =>
                      if decide (truthy recurring ∧ subsequent = None) then
                        Ret (Tools.confirmation_required booking_data)
                      else Cal.cancel_booking self uid reason subsequent
                  end
              end
          end.
Proof.
  intros Hkey Huid. unfold Tools.cancel_appointment, Cal.get_booking.
  rewrite (check_api_key_present _ Hkey), !decide_False by done.
  eexists. split; [reflexivity|]. split; reflexivity.
Qed.

(** X17: [cancel_appointment] looks the booking up first.  When the caller
    has not said what to do with later occurrences and the data of the
    booking carry a [recurringEventId], it makes no second request: it
    returns the answer of the lookup if that has an ["error"] key, and
    otherwise the request for confirmation with the data of the booking.
    An exception of the lookup leaves the tool. *)
Theorem cancel_appointment_asks_first self uid reason :
  truthy_str (api_key self) → uid ≠ EmptyString →
  ∃ r k,
    Tools.cancel_appointment self uid reason None = Req r k
    ∧ sent_with_key self r ∧ method r = "GET"%string
    ∧ url r = Cal.API_BASE_URL +:+ "/bookings/" +:+ uid
    ∧ (∀ e, k (inl e) = Raise e)
    ∧ ∀ returned info booking_data recurring,
        Cal.data_or_error returned = PyDict info →
        py_get (PyDict info) "data" (PyDict []) = inr booking_data →
        py_get booking_data "recurringEventId" PyNone = inr recurring →
        truthy recurring →
        k (inr returned)
        = Ret (if decide (is_Some (Dict.get "error" info)) then PyDict info
               else Tools.confirmation_required booking_data).
Proof.
  intros Hkey Huid.
  destruct (cancel_appointment_lookup self uid reason None Hkey Huid)
    as (k & -> & Hraise & Hk).
  eexists _, k. split; [done|]. split_and!; [|done..|].
  - destruct (truthy_str_Some _ Hkey) as (key & Hsome & Hne).
    by eapply (sent_with_key_versioned _ key).
  - intros returned info booking_data recurring Hinfo Hdata Hrec Htruthy.
    rewrite Hk, Hinfo. cbn [py_contains].
    case_bool_decide; [by rewrite decide_True|]. rewrite decide_False by done.
    rewrite Hdata, Hrec. by rewrite decide_True.
Qed.

(** X18: when the lookup answers a dictionary without an ["error"] key and
    the booking found has no [recurringEventId], or the caller has chosen,
    the second request is the POST to [/bookings/<uid>/cancel]; its body
    carries the reason if there is one and the choice if it was made.  What
    [make_api_request] returns for it the tool passes on, and an exception
    of that call leaves the tool. *)
Theorem cancel_appointment_cancels self uid reason subsequent :
  truthy_str (api_key self) → uid ≠ EmptyString →
  ∃ r k,
    Tools.cancel_appointment self uid reason subsequent = Req r k
    ∧ ∀ returned info booking_data recurring,
        Cal.data_or_error returned = PyDict info →
        Dict.get "error" info = None →
        py_get (PyDict info) "data" (PyDict []) = inr booking_data →
        py_get booking_data "recurringEventId" PyNone = inr recurring →
        ¬ truthy recurring ∨ is_Some subsequent →
        ∃ r' k',
          k (inr returned) = Req r' k'
          ∧ sent_with_key self r' ∧ method r' = "POST"%string
          ∧ url r' = Cal.API_BASE_URL +:+ "/bookings/" +:+ uid +:+ "/cancel"
          ∧ json_data r'
            = Some ((if decide (truthy_str reason)
                     then [("cancellationReason"%string, py_str reason)] else [])
                    ++ match subsequent with
                       | Some b => [("cancelSubsequentBookings"%string, PyBool b)]
                       | None => []
                       end)
          ∧ passes_on k'.
Proof.
  intros Hkey Huid.
  destruct (cancel_appointment_lookup self uid reason subsequent Hkey Huid)
    as (k & -> & _ & Hk).
  eexists _, k. split; [done|].
  intros returned info booking_data recurring Hinfo Herr Hdata Hrec Hgo. rewrite Hk, Hinfo.
  cbn [py_contains]. rewrite Herr. rewrite bool_decide_eq_false_2 by (by intros [? ?]).
  rewrite Hdata, Hrec. rewrite decide_False.
  2:{ intros [? ->]. destruct Hgo as [?|[? ?]]; done. }
  unfold Cal.cancel_booking. rewrite (check_api_key_present _ Hkey), decide_False by done.
  eexists _, _. split; [reflexivity|]. split_and!; [|done..| |apply passes_on_data].
  - destruct (truthy_str_Some _ Hkey) as (key & Hsome & Hne).
    by eapply (sent_with_key_versioned _ key _ _ ("bookings/" +:+ uid +:+ "/cancel")).
  - cbn [json_data Cal.post_request]. f_equal. unfold Cal.set_if.
    case_decide; by destruct subsequent.
Qed.

Lemma validate_formatted_not_nil datetime_str timezone_str is_end_time formatted :
  (DateUtils.validate_and_format_datetime datetime_str timezone_str is_end_time).1
  = Some formatted →
  formatted ≠ EmptyString.
Proof.
  unfold DateUtils.validate_and_format_datetime, DateUtils.format_datetime,
    DateUtils.invalid_format, DateUtils.unknown_timezone.
  repeat first [case_decide | case_match]; cbn [fst]; intros ?; simplify_eq;
    apply insert_offset_colon_not_nil.
Qed.

(** X19: with an API key, an event type id other than 0 and a start time
    that validates, [book_new_appointment] passes every check of
    [create_new_booking] and makes the POST to [/bookings]: the body has the
    event type, the formatted start, the attendee, a location that is the
    given one or "To be determined", and the metadata, title and description
    if given and non-empty, then the source.  What [make_api_request]
    returns the tool passes on, and an exception of the call leaves the
    tool. *)
Theorem book_new_appointment_request self id start name email tz title description location
    formatted :
  truthy_str (api_key self) →
  id ≠ 0 →
  DateUtils.validate_and_format_datetime start (Some tz) false = (Some formatted, None) →
  Tools.book_new_appointment self id start name email tz title description location
  = Req
      (Cal.post_request self (Cal.API_BASE_URL +:+ "/bookings") "2024-08-13"
         [("eventTypeId", PyInt id);
          ("start", PyStr formatted);
          ("attendee",
           PyDict [("name", PyStr name); ("email", PyStr email); ("timeZone", PyStr tz)]);
          ("location",
           PyDict [("location",
                    if decide (truthy_str location) then py_str location
                    else PyStr "To be determined");
                   ("type", PyStr "attendeeDefined")]);
          ("metadata",
           PyDict ((if decide (truthy_str title) then [("title", py_str title)] else [])
                   ++ (if decide (truthy_str description)
                       then [("description", py_str description)] else [])
                   ++ [("source", PyStr "calchat")]))]%string
         "Creating new booking")
      (on_return (λ returned, Ret (Cal.data_or_error returned))).
Proof.
  intros Hkey Hid Hvalid.
  assert (formatted ≠ EmptyString) as Hne.
  { apply (validate_formatted_not_nil start (Some tz) false). by rewrite Hvalid. }
  unfold Tools.book_new_appointment, Tools.checked. rewrite decide_False by done.
  rewrite Hvalid. cbn [fst snd]. unfold Cal.create_new_booking.
  rewrite (check_api_key_present _ Hkey).
  rewrite decide_False by (intros [?|[Hs|?]]; [done|by apply Hs|done]).
  rewrite decide_False by (intros Hmissing; by apply Hmissing).
  unfold Cal.set_if, Cal.post_request.
  destruct (decide (truthy_str location)), (decide (truthy_str title)),
    (decide (truthy_str description)); reflexivity.
Qed.





Lemma get_api_key_truthy environ var :
  truthy_str (environ var) → get_api_key environ var = environ var.
Proof. intros Hkey. unfold get_api_key. by rewrite decide_True. Qed.

Lemma get_api_key_falsy environ var :
  ¬ truthy_str (environ var) → get_api_key environ var = None.
Proof. intros Hkey. unfold get_api_key. by rewrite decide_False. Qed.

(** X21: a service created while the API key variable is unset or empty
    makes no request; it has no key, no event types, and the error
    dictionary in place of the profile. *)
Theorem init_without_key environ :
  ¬ truthy_str (environ Cal.API_KEY_ENV_VAR) →
  ∃ service,
    Cal.init str_exn environ = Ret service
    ∧ api_key service = None
    ∧ username service = environ Cal.USERNAME_ENV_VAR
    ∧ all_event_types service = []
    ∧ my_profile service
      = inl (error_dict "CAL_DOT_COM_API_KEY not found in environment variables").
Proof.
  intros Hkey. unfold Cal.init, Cal.get_all_event_types, Cal.get_my_profile.
  rewrite (get_api_key_falsy _ _ Hkey).
  rewrite check_api_key_missing by (cbn [api_key]; tauto).
  cbn [Cal.bind]. eexists. split; [reflexivity|]. by split_and!.
Qed.

(** X22: a service created with an API key makes the GET of the event
    types of the user and then, whatever that call returned, the GET of the
    profile: two requests, unless an exception leaves [make_api_request],
    which then leaves [__init__] too, before the second request when it is
    the first call that raised.  The event types of the service are the ones
    parsed from what the first call returned, and none if it returned an
    error message or the parsing failed. *)
Theorem init_with_key environ :
  truthy_str (environ Cal.API_KEY_ENV_VAR) →
  ∃ r1 k1,
    Cal.init str_exn environ = Req r1 k1
    ∧ method r1 = "GET"%string
    ∧ url r1 = Cal.API_BASE_URL +:+ "/event-types"
    ∧ params r1 = Some [("username"%string, py_str (environ Cal.USERNAME_ENV_VAR))]
    ∧ (∀ e, k1 (inl e) = Raise e)
    ∧ ∀ returned1, ∃ r2 k2,
        k1 (inr returned1) = Req r2 k2
        ∧ method r2 = "GET"%string
        ∧ url r2 = Cal.API_BASE_URL +:+ "/me"
        ∧ (∀ e, k2 (inl e) = Raise e)
        ∧ ∀ returned2, ∃ service,
            k2 (inr returned2) = Ret service
            ∧ api_key service = environ Cal.API_KEY_ENV_VAR
            ∧ username service = environ Cal.USERNAME_ENV_VAR
            ∧ all_event_types service
              = match Cal.request_error returned1, Cal.parse_event_types returned1.1 with
                | None, inr (inr event_types) => event_types
                | _, _ => []
                end.
Proof.
  intros Hkey. unfold Cal.init, Cal.get_all_event_types, Cal.get_my_profile.
  rewrite (get_api_key_truthy _ _ Hkey).
  rewrite check_api_key_present by done.
  cbn [Cal.bind]. eexists _, _. split; [reflexivity|]. split_and!; [done..|].
  intros returned1. cbn [on_return].
  assert (∀ (result : PyVal + list EventType) (f : PyVal + list EventType → Call CalApiService),
            Cal.bind (Ret result) f = f result) as Hret by done.
  destruct (Cal.request_error returned1) as [msg|] eqn:Herr;
    [|destruct (Cal.parse_event_types returned1.1) as [e|[msg|event_types]] eqn:Hparse];
    rewrite Hret; cbn [Cal.bind];
    (eexists _, _; split; [reflexivity|]; split_and!; [done..|]);
    intros returned2; cbn [on_return];
    (destruct (Cal.request_error returned2);
       [|destruct (Cal.parse_user_profile returned2.1) as [?|[?|?]]]);
    cbn [Cal.bind]; (eexists; split; [reflexivity|]); cbn [api_key username all_event_types];
    by split_and!.
Qed.

End CalFacts.

(** ** Instances *)

Lemma no_api_key_no_request_witness :
  let lib : DatetimeLib :=
    {| datetime := string; tzinfo := unit;
       pytz_timezone := λ _, Some ();
       str_UnknownTimeZoneError := λ _, EmptyString;
       datetime_now := λ _, "2025-03-21T11:00:00-0700"%string;
       plus_days := λ _ dt, dt;
       fromisoformat := inr;
       localize := λ _ dt, inr (dt +:+ "-0700");
       strftime := λ dt, dt |} in
  let self := {| api_key := None; username := Some "ann"%string; all_event_types := [];
                 my_profile := inl PyNone |} in
  (∃ msg, Tools.get_available_slots self "" "" "30min" (Some "UTC"%string)
          = Ret (error_dict msg))
  ∧ (∃ msg, Tools.cancel_appointment self "abc" None None = Ret (error_dict msg)).
Proof.
  intros lib self.
  destruct (@no_api_key_no_request lib self) as (Hslots & _ & _ & _ & _ & Hcancel).
  - simpl. tauto.
  - split; [apply Hslots|apply Hcancel].
Defined.

Lemma cancel_appointment_asks_first_witness :
  let self := {| api_key := Some "cal_live_1"%string; username := None;
                 all_event_types := []; my_profile := inl PyNone |} in
  let booking_data := PyDict [("recurringEventId"%string, PyStr "rec1")] in
  let returned : Returned :=
    (PyDict [("status"%string, PyStr "success"); ("data"%string, booking_data)], None) in
  ∃ r k,
    Tools.cancel_appointment self "abc" (Some "busy"%string) None = Req r k
    ∧ url r = "https://api.cal.com/v2/bookings/abc"%string
    ∧ k (inl AttributeError) = Raise AttributeError
    ∧ k (inr returned) = Ret (Tools.confirmation_required booking_data).
Proof.
  intros self booking_data returned.
  destruct (cancel_appointment_asks_first self "abc" (Some "busy"%string))
    as (r & k & Heq & _ & _ & Hurl & Hraise & Hk).
  - simpl. discriminate.
  - discriminate.
  - exists r, k. split; [exact Heq|]. split; [exact Hurl|]. split; [apply Hraise|].
    apply (Hk returned
             [("status"%string, PyStr "success"); ("data"%string, booking_data)]
             booking_data (PyStr "rec1")).
    + reflexivity.
    + reflexivity.
    + reflexivity.
    + simpl. discriminate.
Defined.

Lemma cancel_appointment_cancels_witness :
  let self := {| api_key := Some "cal_live_1"%string; username := None;
                 all_event_types := []; my_profile := inl PyNone |} in
  let info := [("status"%string, PyStr "success");
               ("data"%string, PyDict [("recurringEventId"%string, PyStr "rec1")])] in
  ∃ r k,
    Tools.cancel_appointment self "abc" (Some "busy"%string) (Some true) = Req r k
    ∧ ∃ r' k',
        k (inr (PyDict info, None)) = Req r' k'
        ∧ method r' = "POST"%string
        ∧ url r' = "https://api.cal.com/v2/bookings/abc/cancel"%string
        ∧ json_data r' = Some [("cancellationReason"%string, PyStr "busy");
                               ("cancelSubsequentBookings"%string, PyBool true)]
        ∧ k' (inl AttributeError) = Raise AttributeError
        ∧ k' (inr (PyDict [("status"%string, PyStr "success")], None))
          = Ret (PyDict [("status"%string, PyStr "success")]).
Proof.
  intros self info.
  destruct (cancel_appointment_cancels self "abc" (Some "busy"%string) (Some true))
    as (r & k & Heq & Hk).
  - simpl. discriminate.
  - discriminate.
  - exists r, k. split; [exact Heq|].
    destruct (Hk (PyDict info, None) info
                (PyDict [("recurringEventId"%string, PyStr "rec1")]) (PyStr "rec1"))
      as (r' & k' & Hk' & _ & Hmethod & Hurl & Hjson & Hraise & Hdata).
    + reflexivity.
    + reflexivity.
    + reflexivity.
    + reflexivity.
    + right. by eexists.
    + exists r', k'. split; [exact Hk'|]. split; [exact Hmethod|]. split; [exact Hurl|].
      split; [exact Hjson|]. split; [apply Hraise|apply Hdata].
Defined.

Lemma book_new_appointment_request_witness :
  let lib : DatetimeLib :=
    {| datetime := string; tzinfo := unit;
       pytz_timezone := λ _, Some ();
       str_UnknownTimeZoneError := λ _, EmptyString;
       datetime_now := λ _, "2025-03-21T11:00:00-0700"%string;
       plus_days := λ _ dt, dt;
       fromisoformat := inr;
       localize := λ _ dt, inr (dt +:+ "-0700");
       strftime := λ dt, dt |} in
  let self := {| api_key := Some "cal_live_1"%string; username := None;
                 all_event_types := []; my_profile := inl PyNone |} in
  Tools.book_new_appointment self 42 "2025-03-21T11:00:00" "Ann" "ann@example.com"
    "America/Los_Angeles" (Some "Intro"%string) None (Some ""%string)
  = Req
      (Cal.post_request self "https://api.cal.com/v2/bookings" "2024-08-13"
         [("eventTypeId", PyInt 42);
          ("start", PyStr "2025-03-21T11:00:00-07:00");
          ("attendee",
           PyDict [("name", PyStr "Ann"); ("email", PyStr "ann@example.com");
                   ("timeZone", PyStr "America/Los_Angeles")]);
          ("location",
           PyDict [("location", PyStr "To be determined");
                   ("type", PyStr "attendeeDefined")]);
          ("metadata",
           PyDict [("title", PyStr "Intro"); ("source", PyStr "calchat")])]%string
         "Creating new booking")
      (on_return (λ returned, Ret (Cal.data_or_error returned))).
Proof.
  intros lib self.
  apply (@book_new_appointment_request lib self 42 "2025-03-21T11:00:00" "Ann"
           "ann@example.com" "America/Los_Angeles" (Some "Intro"%string) None
           (Some ""%string) "2025-03-21T11:00:00-07:00").
  - simpl. discriminate.
  - lia.
  - reflexivity.
Defined.


Lemma init_without_key_witness :
  let environ (name : string) : option string :=
    if decide (name = "CAL_DOT_COM_USERNAME"%string) then Some "ann"%string
    else if decide (name = "CAL_DOT_COM_API_KEY"%string) then Some ""%string
    else None in
  ∃ service,
    Cal.init (λ _, EmptyString) environ = Ret service
    ∧ api_key service = None
    ∧ username service = Some "ann"%string
    ∧ all_event_types service = []
    ∧ my_profile service
      = inl (error_dict "CAL_DOT_COM_API_KEY not found in environment variables").
Proof.
  intros environ. apply (init_without_key (λ _, EmptyString) environ).
  simpl. intros Hne. by apply Hne.
Defined.

Lemma init_with_key_witness :
  let environ (name : string) : option string :=
    if decide (name = "CAL_DOT_COM_API_KEY"%string) then Some "cal_live_1"%string
    else None in
  let item :=
    PyDict [("id"%string, PyInt 7); ("slug"%string, PyStr "30min");
            ("title"%string, PyStr "30 Min Meeting")] in
  let returned1 : Returned :=
    (PyDict [("status"%string, PyStr "success"); ("data"%string, PyList [item])], None) in
  ∃ r1 k1,
    Cal.init (λ _, EmptyString) environ = Req r1 k1
    ∧ url r1 = "https://api.cal.com/v2/event-types"%string
    ∧ k1 (inl AttributeError) = Raise AttributeError
    ∧ ∃ r2 k2,
        k1 (inr returned1) = Req r2 k2
        ∧ url r2 = "https://api.cal.com/v2/me"%string
        ∧ ∃ service,
            k2 (inr (PyNone, Some "Error making Fetching user profile: timed out"%string))
            = Ret service
            ∧ all_event_types service
              = [{| EventType_id := PyInt 7; EventType_slug := PyStr "30min";
                    EventType_title := PyStr "30 Min Meeting" |}].
Proof.
  intros environ item returned1.
  destruct (init_with_key (λ _, EmptyString) environ)
    as (r1 & k1 & Heq & _ & Hurl1 & _ & Hraise1 & Hk1).
  - simpl. discriminate.
  - exists r1, k1. split; [exact Heq|]. split; [exact Hurl1|]. split; [apply Hraise1|].
    destruct (Hk1 returned1) as (r2 & k2 & Heq2 & _ & Hurl2 & _ & Hk2).
    exists r2, k2. split; [exact Heq2|]. split; [exact Hurl2|].
    destruct (Hk2 (PyNone, Some "Error making Fetching user profile: timed out"%string))
      as (service & Hservice & _ & _ & Htypes).
    exists service. split; [exact Hservice|exact Htypes].
Defined.
